(** * Racer model: mutation-event dispatch and document retention

    A shallow embedding of [src/Model/events.js] and
    [src/Model/subscriptions.ts].  JavaScript objects that the code shares
    by reference (the root model, the listener trees, the counters) live in
    one [Root] record that every operation threads explicitly; callbacks
    are programs of a small command type [Cmd] that the emitter
    interprets, so a listener can re-enter [_emitMutation] exactly as a
    JavaScript closure does. *)

From Stdlib Require Import ZArith String Ascii.
From stdpp Require Import gmap strings list fin_maps.

Set Warnings "-register-all".

(** ** JavaScript values and mutation events *)

Definition loc := positive.

Inductive Value :=
| VUndefined
| VNum (n : Z)
| VStr (s : string)
| VRef (l : loc)
| VArr (vs : list Value).

Definition Segments := list string.

(** The six event constructors of events.js, lines 429-528. *)
Inductive Event :=
| ChangeEvent (value previous passed : Value)
| LoadEvent (value passed : Value)
| UnloadEvent (previous passed : Value)
| InsertEvent (index values passed : Value)
| RemoveEvent (index values passed : Value)
| MoveEvent (from to howMany passed : Value).

Definition Event_type (e : Event) : string :=
  match e with
  | ChangeEvent _ _ _ => "change"
  | LoadEvent _ _ => "load"
  | UnloadEvent _ _ => "unload"
  | InsertEvent _ _ _ => "insert"
  | RemoveEvent _ _ _ => "remove"
  | MoveEvent _ _ _ _ => "move"
  end.

Definition Event_immediateType (e : Event) : string :=
  match e with
  | ChangeEvent _ _ _ => "changeImmediate"
  | LoadEvent _ _ => "loadImmediate"
  | UnloadEvent _ _ => "unloadImmediate"
  | InsertEvent _ _ _ => "insertImmediate"
  | RemoveEvent _ _ _ => "removeImmediate"
  | MoveEvent _ _ _ _ => "moveImmediate"
  end.

Definition Event_getArgs (e : Event) : list Value :=
  match e with
  | ChangeEvent value previous passed => [value; previous; passed]
  | LoadEvent value passed => [value; passed]
  | UnloadEvent previous passed => [previous; passed]
  | InsertEvent index values passed => [index; values; passed]
  | RemoveEvent index values passed => [index; values; passed]
  | MoveEvent from to howMany passed => [from; to; howMany; passed]
  end.

(** [event.previous], as read from an Unload event. *)
Definition Event_previous (e : Event) : Value :=
  match e with
  | ChangeEvent _ previous _ => previous
  | UnloadEvent previous _ => previous
  | _ => VUndefined
  end.

Definition immediateTypes : list string :=
  ["changeImmediate"; "loadImmediate"; "unloadImmediate";
   "insertImmediate"; "removeImmediate"; "moveImmediate"].

Definition is_immediate (ty : string) : bool :=
  bool_decide (ty ∈ immediateTypes).

(** ** Scopes, documents, thrown values *)

(** A scoped view of the model: the fields a child model overrides.
    [_pass] is a reference to a [Passed] object. *)
Record Scope := MkScope {
  _at : string;
  _pass : Value;
  _silent : bool;
  _eventContext : option string }.

(** The external synchronisation handle of a document, as far as the
    model reads it: its [subscribed] flag and the answer of
    [hasPending()]. *)
Record ShareDoc := MkShareDoc {
  subscribed : bool;
  hasPending : bool }.

Record Doc := MkDoc {
  doc_get : Value;
  shareDoc : option ShareDoc }.

(** A piece of an error message: literal text, or the text that
    [JSON.stringify] gives for the pending queue. *)
Inductive MsgPart :=
| Text (s : string)
| StringifyQueue (q : list (Segments * Event)).

(** What a [throw] carries: an [Error] object with its message and its
    optional [data] property ([Some None]: a [data] on which
    [JSON.stringify] throws; [Some (Some j)]: one with JSON text [j]), a
    string, or another non-null object. *)
Inductive Thrown :=
| ErrorObj (message : list MsgPart) (data : option (option string))
| StrVal (s : string)
| ObjVal (message : list MsgPart) (data : option (option string)).

(** ** Callbacks as programs

    The body of a listener or of a completion callback: it may read and
    replace the model data, issue mutation events through a scope, and
    throw. *)
Inductive Cmd :=
| Ret
| Emit (m : Scope) (segments : Segments) (event : Event) (k : Cmd)
| GetData (k : gmap string (gmap string Doc) → Cmd)
| SetData (d : gmap string (gmap string Doc)) (k : Cmd)
| Throw (e : Thrown).

(** [MutationListener] (events.js, 370-375); the back-reference [node]
    exists for removal only and is left out. *)
Record MutationListener := MkMutationListener {
  patternSegments : list string;
  eventContext : option string;
  fn : Segments → Event → Cmd }.

(** ** The listener tree *)

Inductive Node := MkNode {
  listeners : list MutationListener;
  children : gmap string Node;
  wildcardNode : option Node;
  restNode : option Node }.

Definition emptyNode : Node := MkNode [] ∅ None None.

(** Modelled from the spec: [EventListenerTree.addListener] is not part of
    the sources at hand.  Section 4.1: walk or create a node per segment
    (a literal segment a keyed child, [*] the single-wildcard child, [**]
    the tail-wildcard child) and append the listener to the terminal
    node's list. *)
Fixpoint addListener (segments : list string) (listener : MutationListener)
    (n : Node) : Node :=
  match segments with
  | [] => MkNode (listeners n ++ [listener]) (children n)
            (wildcardNode n) (restNode n)
  | s :: rest =>
    if decide (s = "*") then
      MkNode (listeners n) (children n)
        (Some (addListener rest listener (default emptyNode (wildcardNode n))))
        (restNode n)
    else if decide (s = "**") then
      MkNode (listeners n) (children n) (wildcardNode n)
        (Some (addListener rest listener (default emptyNode (restNode n))))
    else
      MkNode (listeners n)
        (<[s := addListener rest listener
                  (default emptyNode (children n !! s))]> (children n))
        (wildcardNode n) (restNode n)
  end.

(** Modelled from the spec: [EventListenerTree.getWildcardListeners] is not
    part of the sources at hand.  Section 4.1: the listeners of the
    tail-wildcard child first, then, when the path is used up, the
    listeners ending at this node, otherwise the matches below the literal
    child and below the single-wildcard child. *)
Fixpoint getWildcardListeners (n : Node) (segments : Segments)
    : list MutationListener :=
  match restNode n with Some t => listeners t | None => [] end ++
  match segments with
  | [] => listeners n
  | s :: rest =>
    match children n !! s with
    | Some c => getWildcardListeners c rest
    | None => []
    end ++
    match wildcardNode n with
    | Some w => getWildcardListeners w rest
    | None => []
    end
  end.

(** ** The root model *)

(** A query of the query index, as [_hasDocReferences] reads it. *)
Record Query := MkQuery {
  fetchCount : Z;
  subscribeCount : Z;
  idMap : gmap string Z }.

(** The arguments a completion callback is called with: [cb()] is
    [MkCbArgs None None], [cb(null, n)] is [MkCbArgs None (Some n)] and
    [cb(err)] is [MkCbArgs (Some err) None]. *)
Record CbArgs := MkCbArgs {
  cb_err : option Thrown;
  cb_count : option nat }.

(** The two functions [wrapCallback] returns (events.js, 56-66): the
    root's [_defaultCallback], or the closure [wrappedCallback] over the
    scope and the user's [cb]. *)
Inductive Callback :=
| defaultCallback
| wrappedCallback (model : Scope) (cb : CbArgs → Cmd).

(** The closures that subscriptions.ts hands to timers and to the
    synchronisation handle, with the variables they capture. *)
Inductive Thunk :=
| thunk_finishUnfetchDoc (model : Scope) (collectionName id : string) (cb : Callback)
| thunk_finishUnsubscribeDoc (model : Scope) (collectionName id : string)
    (cb : Callback)
| thunk_unsubscribeDocCallback (model : Scope) (collectionName id : string)
    (cb : Callback)
| thunk_retryMaybeUnloadDoc (model : Scope) (collectionName id : string).

(** Calls made on a document's synchronisation handle. *)
Inductive ShareCall :=
| sd_unsubscribe (collectionName id : string) (callback : Thunk)
| sd_whenNothingPending (collectionName id : string) (callback : Thunk)
| sd_destroy (collectionName id : string).

(** Calls made on the scope's [_context] object, which is not part of the
    sources at hand; they are recorded, not interpreted. *)
Inductive ContextCall :=
| ctx_unfetchDoc (collectionName id : string)
| ctx_unsubscribeDoc (collectionName id : string).

(** Ghost history of the dispatch: a listener called, a listener
    returned, a pair appended to the pending queue. *)
Inductive Entry :=
| Invoked (type : string) (segments : Segments) (event : Event)
    (listener : MutationListener)
| Returned (type : string) (segments : Segments) (event : Event)
    (listener : MutationListener)
| Enqueued (segments : Segments) (event : Event).

(** The root model.  The pending queue is a flat array
    [segments, event, segments, event, ...] in the source, always pushed
    and read two cells at a time; it is kept here as a list of pairs, and
    [None] is the source's [null]. *)
Record Root := MkRoot {
  _mutationListeners : gmap string Node;
  _emittingMutation : bool;
  _mutationEventQueue : option (list (Segments * Event));
  _eventContextListeners : gmap string (list MutationListener);
  collections : gmap string (gmap string Doc);
  _fetchedDocs : gmap string (gmap string nat);
  _subscribedDocs : gmap string (gmap string nat);
  _queries : gmap string (gmap string Query);
  fetchOnly : bool;
  unloadDelay : Z;
  timers : list (Z * Thunk);
  shareCalls : list ShareCall;
  contextCalls : list ContextCall;
  history : list Entry }.

Definition with_mutationListeners (v : gmap string Node) (r : Root) : Root :=
  MkRoot v (_emittingMutation r) (_mutationEventQueue r)
    (_eventContextListeners r) (collections r) (_fetchedDocs r)
    (_subscribedDocs r) (_queries r) (fetchOnly r) (unloadDelay r)
    (timers r) (shareCalls r) (contextCalls r) (history r).

Definition with_emittingMutation (v : bool) (r : Root) : Root :=
  MkRoot (_mutationListeners r) v (_mutationEventQueue r)
    (_eventContextListeners r) (collections r) (_fetchedDocs r)
    (_subscribedDocs r) (_queries r) (fetchOnly r) (unloadDelay r)
    (timers r) (shareCalls r) (contextCalls r) (history r).

Definition with_mutationEventQueue (v : option (list (Segments * Event)))
    (r : Root) : Root :=
  MkRoot (_mutationListeners r) (_emittingMutation r) v
    (_eventContextListeners r) (collections r) (_fetchedDocs r)
    (_subscribedDocs r) (_queries r) (fetchOnly r) (unloadDelay r)
    (timers r) (shareCalls r) (contextCalls r) (history r).

Definition with_eventContextListeners
    (v : gmap string (list MutationListener)) (r : Root) : Root :=
  MkRoot (_mutationListeners r) (_emittingMutation r) (_mutationEventQueue r)
    v (collections r) (_fetchedDocs r)
    (_subscribedDocs r) (_queries r) (fetchOnly r) (unloadDelay r)
    (timers r) (shareCalls r) (contextCalls r) (history r).

Definition with_collections (v : gmap string (gmap string Doc)) (r : Root)
    : Root :=
  MkRoot (_mutationListeners r) (_emittingMutation r) (_mutationEventQueue r)
    (_eventContextListeners r) v (_fetchedDocs r)
    (_subscribedDocs r) (_queries r) (fetchOnly r) (unloadDelay r)
    (timers r) (shareCalls r) (contextCalls r) (history r).

Definition with_fetchedDocs (v : gmap string (gmap string nat)) (r : Root)
    : Root :=
  MkRoot (_mutationListeners r) (_emittingMutation r) (_mutationEventQueue r)
    (_eventContextListeners r) (collections r) v
    (_subscribedDocs r) (_queries r) (fetchOnly r) (unloadDelay r)
    (timers r) (shareCalls r) (contextCalls r) (history r).

Definition with_subscribedDocs (v : gmap string (gmap string nat)) (r : Root)
    : Root :=
  MkRoot (_mutationListeners r) (_emittingMutation r) (_mutationEventQueue r)
    (_eventContextListeners r) (collections r) (_fetchedDocs r)
    v (_queries r) (fetchOnly r) (unloadDelay r)
    (timers r) (shareCalls r) (contextCalls r) (history r).

Definition with_queries (v : gmap string (gmap string Query)) (r : Root)
    : Root :=
  MkRoot (_mutationListeners r) (_emittingMutation r) (_mutationEventQueue r)
    (_eventContextListeners r) (collections r) (_fetchedDocs r)
    (_subscribedDocs r) v (fetchOnly r) (unloadDelay r)
    (timers r) (shareCalls r) (contextCalls r) (history r).

Definition with_options (fo : bool) (delay : Z) (r : Root) : Root :=
  MkRoot (_mutationListeners r) (_emittingMutation r) (_mutationEventQueue r)
    (_eventContextListeners r) (collections r) (_fetchedDocs r)
    (_subscribedDocs r) (_queries r) fo delay
    (timers r) (shareCalls r) (contextCalls r) (history r).

Definition with_timers (v : list (Z * Thunk)) (r : Root) : Root :=
  MkRoot (_mutationListeners r) (_emittingMutation r) (_mutationEventQueue r)
    (_eventContextListeners r) (collections r) (_fetchedDocs r)
    (_subscribedDocs r) (_queries r) (fetchOnly r) (unloadDelay r)
    v (shareCalls r) (contextCalls r) (history r).

Definition with_shareCalls (v : list ShareCall) (r : Root) : Root :=
  MkRoot (_mutationListeners r) (_emittingMutation r) (_mutationEventQueue r)
    (_eventContextListeners r) (collections r) (_fetchedDocs r)
    (_subscribedDocs r) (_queries r) (fetchOnly r) (unloadDelay r)
    (timers r) v (contextCalls r) (history r).

Definition with_contextCalls (v : list ContextCall) (r : Root) : Root :=
  MkRoot (_mutationListeners r) (_emittingMutation r) (_mutationEventQueue r)
    (_eventContextListeners r) (collections r) (_fetchedDocs r)
    (_subscribedDocs r) (_queries r) (fetchOnly r) (unloadDelay r)
    (timers r) (shareCalls r) v (history r).

Definition with_history (v : list Entry) (r : Root) : Root :=
  MkRoot (_mutationListeners r) (_emittingMutation r) (_mutationEventQueue r)
    (_eventContextListeners r) (collections r) (_fetchedDocs r)
    (_subscribedDocs r) (_queries r) (fetchOnly r) (unloadDelay r)
    (timers r) (shareCalls r) (contextCalls r) v.

Definition note (e : Entry) (r : Root) : Root :=
  with_history (history r ++ [e]) r.

(** ** Outcomes *)

(** A call returns normally, leaves by an exception, or (in the model
    only) exhausts the bound on nested calls. *)
Inductive Outcome :=
| Done (r : Root)
| Threw (e : Thrown) (r : Root)
| OutOfFuel.

Definition andThen (o : Outcome) (k : Root → Outcome) : Outcome :=
  match o with
  | Done r => k r
  | Threw e r => Threw e r
  | OutOfFuel => OutOfFuel
  end.

Notation "o >>- k" := (andThen o k) (at level 61, left associativity).

(** ** The mutation emitter (events.js, 88-132) *)

Definition newline : string := String "010"%char EmptyString.

Definition cycleError (queue : list (Segments * Event)) : Thrown :=
  ErrorObj
    [Text ("Maximum model mutation event cycles exceeded. Most likely, an event "
           +:+ "listener is performing a mutation that emits an event to the same "
           +:+ "listener, directly or indirectly. This creates an infinite cycle. Queue details: "
           +:+ newline);
     StringifyQueue queue] None.

(** Calling a method of [undefined]: what [tree.getWildcardListeners] does
    when no tree is registered under the type. *)
Definition typeError : Thrown :=
  ErrorObj [Text "Cannot read properties of undefined"] None.

(** [root._mutationEventQueue.push(segments, event)], or a fresh array. *)
Definition enqueue (segments : Segments) (event : Event) (r : Root) : Root :=
  note (Enqueued segments event)
    (with_mutationEventQueue
       (Some (match _mutationEventQueue r with
              | Some queue => queue ++ [(segments, event)]
              | None => [(segments, event)]
              end)) r).

Section Dispatch.
(** The re-entrant call: what [model._emitMutation] does when a listener
    calls it. *)
Variable emit : Scope → Segments → Event → Root → Outcome.

Fixpoint runCmd (c : Cmd) (r : Root) : Outcome :=
  match c with
  | Ret => Done r
  | Emit m segments event k => emit m segments event r >>- runCmd k
  | GetData k => runCmd (k (collections r)) r
  | SetData d k => runCmd k (with_collections d r)
  | Throw e => Threw e r
  end.

(** The loop of [_callMutationListeners] over the listeners found. *)
Fixpoint callListeners (type : string) (segments : Segments) (event : Event)
    (ls : list MutationListener) (r : Root) : Outcome :=
  match ls with
  | [] => Done r
  | l :: ls' =>
    runCmd (fn l segments event) (note (Invoked type segments event l) r) >>-
    (λ r1, callListeners type segments event ls'
             (note (Returned type segments event l) r1))
  end.

Definition _callMutationListeners (type : string) (segments : Segments)
    (event : Event) (r : Root) : Outcome :=
  match _mutationListeners r !! type with
  | None => Threw typeError r
  | Some tree =>
    callListeners type segments event (getWildcardListeners tree segments) r
  end.

(** The [for] loop over one batch of the queue (lines 115-120). *)
Fixpoint dispatchQueue (queue : list (Segments * Event)) (r : Root)
    : Outcome :=
  match queue with
  | [] => Done r
  | (segments, event) :: rest =>
    _callMutationListeners (Event_type event) segments event r >>-
    _callMutationListeners "all" segments event >>-
    dispatchQueue rest
  end.

(** The [while] loop (lines 104-121); [limit] is the value of the
    counter before [--limit], so [--limit < 0] is [limit = 0]. *)
Fixpoint drain (limit : nat) (r : Root) : Outcome :=
  match _mutationEventQueue r with
  | None => Done r
  | Some queue =>
    match limit with
    | O => Threw (cycleError queue) r
    | S limit' =>
      dispatchQueue queue (with_mutationEventQueue None r) >>- drain limit'
    end
  end.

(** Lines 92-122: what [_emitMutation] does once the immediate
    listeners have returned. *)
Definition afterImmediate (segments : Segments) (event : Event)
    (r : Root) : Outcome :=
  if _emittingMutation r then Done (enqueue segments event r) else
  _callMutationListeners (Event_type event) segments event
    (with_emittingMutation true r) >>-
  _callMutationListeners "all" segments event >>-
  drain 1000 >>-
  (λ r4, Done (with_emittingMutation false r4)).

Definition emitMutation_body (m : Scope) (segments : Segments)
    (event : Event) (r : Root) : Outcome :=
  if _silent m then Done r else
  _callMutationListeners (Event_immediateType event) segments event r >>-
  afterImmediate segments event.
End Dispatch.

(** [Model.prototype._emitMutation]; [fuel] bounds the depth of nested
    calls from listeners. *)
Fixpoint _emitMutation (fuel : nat) (m : Scope) (segments : Segments)
    (event : Event) (r : Root) : Outcome :=
  match fuel with
  | O => OutOfFuel
  | S fuel' => emitMutation_body (_emitMutation fuel') m segments event r
  end.

(** ** Initialisation (events.js, 23-52) *)

(** [type] and [_immediateType] of the six event prototypes, in the order
    of [exports.mutationEvents]. *)
Definition eventPrototypes : list (string * string) :=
  [("change", "changeImmediate"); ("load", "loadImmediate");
   ("unload", "unloadImmediate"); ("insert", "insertImmediate");
   ("remove", "removeImmediate"); ("move", "moveImmediate")].

Definition initEvents (r : Root) : Root :=
  let mutationListeners :=
    foldl (λ acc p, <[p.2 := emptyNode]> (<[p.1 := emptyNode]> acc))
      {["all" := emptyNode]} eventPrototypes in
  with_eventContextListeners ∅
    (with_mutationEventQueue None
       (with_emittingMutation false
          (with_mutationListeners mutationListeners r))).

(** A root before any initialiser has run. *)
Definition blankRoot : Root :=
  MkRoot ∅ false None ∅ ∅ ∅ ∅ ∅ false 0 [] [] [] [].

(** The root scope: [_pass] is the fresh [Passed] object at [passed],
    [_silent] is [false], [_eventContext] is [null]. *)
Definition rootScope (passed : loc) : Scope :=
  MkScope "" (VRef passed) false None.

(** ** Reading the history *)

(** Entries of the ordered phase: calls and returns of listeners of an
    event's own type or of type [all]. *)
Definition is_dispatch (e : Entry) : bool :=
  match e with
  | Invoked ty _ _ _ | Returned ty _ _ _ => negb (is_immediate ty)
  | Enqueued _ _ => false
  end.

Definition dispatched (h : list Entry) : list Entry := List.filter is_dispatch h.

(** The pairs appended to the pending queue, in order. *)
Fixpoint enqueued (h : list Entry) : list (Segments * Event) :=
  match h with
  | [] => []
  | Enqueued segments event :: h' => (segments, event) :: enqueued h'
  | _ :: h' => enqueued h'
  end.

(** Each listener of [ls] called and returned, one after the other. *)
Definition block (type : string) (segments : Segments) (event : Event)
    (ls : list MutationListener) : list Entry :=
  flat_map (λ l, [Invoked type segments event l;
                  Returned type segments event l]) ls.

Definition treeOf (r : Root) (type : string) : Node :=
  default emptyNode (_mutationListeners r !! type).

(** The ordered delivery of one event: its own-type listeners, then the
    listeners of type [all]. *)
Definition delivery (r : Root) (p : Segments * Event) : list Entry :=
  block (Event_type p.2) p.1 p.2
    (getWildcardListeners (treeOf r (Event_type p.2)) p.1) ++
  block "all" p.1 p.2 (getWildcardListeners (treeOf r "all") p.1).

Definition queue_list (r : Root) : list (Segments * Event) :=
  default [] (_mutationEventQueue r).

(** No emission in flight and nothing pending. *)
Definition idle (r : Root) : Prop :=
  _emittingMutation r = false ∧ _mutationEventQueue r = None.

(** What dispatching never touches, and the history only grows. *)
Record frame (r r' : Root) : Prop := MkFrame {
  frame_mutationListeners : _mutationListeners r' = _mutationListeners r;
  frame_eventContextListeners :
    _eventContextListeners r' = _eventContextListeners r;
  frame_fetchedDocs : _fetchedDocs r' = _fetchedDocs r;
  frame_subscribedDocs : _subscribedDocs r' = _subscribedDocs r;
  frame_queries : _queries r' = _queries r;
  frame_fetchOnly : fetchOnly r' = fetchOnly r;
  frame_unloadDelay : unloadDelay r' = unloadDelay r;
  frame_timers : timers r' = timers r;
  frame_shareCalls : shareCalls r' = shareCalls r;
  frame_contextCalls : contextCalls r' = contextCalls r;
  frame_history : ∃ Δ, history r' = history r ++ Δ }.

Definition frame_out (r : Root) (o : Outcome) : Prop :=
  match o with
  | Done r' | Threw _ r' => frame r r'
  | OutOfFuel => True
  end.

(** The effect of a call made while an emission is in flight: the flag
    stays set, the ordered entries added are [D], and the queue grows by
    what was enqueued. *)
Definition inflight_post (r r' : Root) (D : list Entry) : Prop :=
  _emittingMutation r' = true ∧
  ∃ Δ, history r' = history r ++ Δ ∧ dispatched Δ = D ∧
       queue_list r' = queue_list r ++ enqueued Δ.


(** [n] full passes of the drain loop, each one finding the queue
    non-empty and dispatching its batch without an exception. *)
Fixpoint passes (emit : Scope → Segments → Event → Root → Outcome)
    (n : nat) (r : Root) : option Root :=
  match n with
  | O => Some r
  | S n' =>
    match _mutationEventQueue r with
    | None => None
    | Some queue =>
      match dispatchQueue emit queue (with_mutationEventQueue None r) with
      | Done r1 => passes emit n' r1
      | _ => None
      end
    end
  end.

(** The state an outcome ends in, when it has one. *)
Definition final (o : Outcome) : option Root :=
  match o with
  | Done r | Threw _ r => Some r
  | OutOfFuel => None
  end.

(** ** Error events and wrapped callbacks (events.js, 56-86) *)

Definition part_empty (p : MsgPart) : bool :=
  match p with
  | Text s => bool_decide (s = "")
  | StringifyQueue _ => false
  end.

(** Truthiness of a message: it is not the empty string. *)
Definition message_truthy (m : list MsgPart) : bool := negb (forallb part_empty m).

(** Truthiness of a thrown value: only the empty string is falsy. *)
Definition thrown_truthy (err : Thrown) : bool :=
  match err with
  | StrVal s => negb (bool_decide (s = ""))
  | _ => true
  end.

Definition Thrown_data (err : Thrown) : option (option string) :=
  match err with
  | ErrorObj _ data | ObjVal _ data => data
  | StrVal _ => None
  end.

Section Callbacks.
(** [this.emit(type, err)] of Node's [EventEmitter], on the emitter
    state that [EventEmitter.call(root)] set up; it belongs to the
    platform and is left open. *)
Variable EventEmitter_emit : string → Thrown → Root → Outcome.
Variable fuel : nat.

Definition _emitError (err : Thrown) (context : option string) (r : Root)
    : Outcome :=
  let message :=
    match err with
    | ErrorObj m _ | ObjVal m _ =>
      if message_truthy m then m else [Text "Unknown model error"]
    | StrVal s => [Text s]
    end in
  let message :=
    match context with
    | Some c => if bool_decide (c = "") then message
                else message ++ [Text (" " +:+ c)]
    | None => message
    end in
  let message :=
    match Thrown_data err with
    | Some (Some json) => message ++ [Text (" " +:+ json)]
    | Some None | None => message
    end in
  let err :=
    match err with
    | ErrorObj _ data => ErrorObj message data
    | _ => ErrorObj message None
    end in
  EventEmitter_emit "error" err r.

Definition wrapCallback (model : Scope) (cb : option (CbArgs → Cmd))
    : Callback :=
  match cb with
  | None => defaultCallback
  | Some cb => wrappedCallback model cb
  end.

(** Calling what [wrapCallback] returned. *)
Definition callCallback (c : Callback) (args : CbArgs) (r : Root)
    : Outcome :=
  match c with
  | defaultCallback =>
    match cb_err args with
    | Some err => if thrown_truthy err then _emitError err None r
                  else Done r
    | None => Done r
    end
  | wrappedCallback model cb =>
    match runCmd (_emitMutation fuel) (cb args) r with
    | Threw err r' => _emitError err None r'
    | o => o
    end
  end.

(** ** Document retention (subscriptions.ts, 220-333) *)

(** Modelled from the spec: [CollectionCounter] is not part of the
    sources at hand.  Section 4.4: [get] is 0 for an absent entry. *)
Definition CollectionCounter_get (c : gmap string (gmap string nat))
    (collectionName id : string) : nat :=
  default 0 (c !! collectionName ≫= (λ ids, ids !! id)).

(** Modelled from the spec: [CollectionCounter.decrement], Section 4.4:
    the new count, with a floor at 0; decrementing an absent or zero
    entry changes nothing and returns 0. *)
Definition CollectionCounter_decrement (c : gmap string (gmap string nat))
    (collectionName id : string) : gmap string (gmap string nat) * nat :=
  match CollectionCounter_get c collectionName id with
  | O => (c, 0)
  | S n =>
    (<[collectionName :=
         <[id := n]> (default ∅ (c !! collectionName))]> c, n)
  end.

(** Modelled from the spec: [getDoc] and the collection's [remove] are
    not part of the sources at hand; a document is looked up by
    collection name and id, and removing it deletes that entry. *)
Definition getDoc (r : Root) (collectionName id : string) : option Doc :=
  collections r !! collectionName ≫= (λ docs, docs !! id).

(** Modelled from the spec: the collection's [remove(id)], which is not
    part of the sources at hand, guarded as on line 305: the local
    document is deleted when its collection exists. *)
Definition Collection_remove (collectionName id : string) (r : Root)
    : Root :=
  match collections r !! collectionName with
  | Some docs =>
    with_collections (<[collectionName := delete id docs]> (collections r)) r
  | None => r
  end.

Definition number_truthy (n : Z) : bool := negb (n =? 0)%Z.

(** The body of the loop over the queries of a collection. *)
Definition query_holds (id : string) (query : Query) : bool :=
  if negb (number_truthy (subscribeCount query)) &&
     negb (number_truthy (fetchCount query)) then false
  else match idMap query !! id with
       | Some n => (0 <? n)%Z
       | None => false
       end.

Definition _hasDocReferences (collectionName id : string) (r : Root)
    : bool :=
  match _queries r !! collectionName with
  | Some queries =>
    existsb (λ hq, query_holds id hq.2) (map_to_list queries)
  | None => false
  end
  || negb (bool_decide (CollectionCounter_get (_fetchedDocs r)
                          collectionName id = 0))
  || negb (bool_decide (CollectionCounter_get (_subscribedDocs r)
                          collectionName id = 0)).

Definition share_call (c : ShareCall) (r : Root) : Root :=
  with_shareCalls (shareCalls r ++ [c]) r.

Definition _maybeUnloadDoc (model : Scope) (collectionName id : string)
    (r : Root) : Outcome :=
  match getDoc r collectionName id with
  | None => Done r
  | Some doc =>
    if _hasDocReferences collectionName id r then Done r else
    if match shareDoc doc with
       | Some sd => hasPending sd
       | None => false
       end
    then
      Done (share_call
              (sd_whenNothingPending collectionName id
                 (thunk_retryMaybeUnloadDoc model collectionName id)) r)
    else
      let previous := doc_get doc in
      let r := Collection_remove collectionName id r in
      let r := match shareDoc doc with
               | Some _ => share_call (sd_destroy collectionName id) r
               | None => r
               end in
      let event := UnloadEvent previous (_pass model) in
      _emitMutation fuel model [collectionName; id] event r
  end.

Definition context_call (c : ContextCall) (r : Root) : Root :=
  with_contextCalls (contextCalls r ++ [c]) r.

Definition setTimeout (t : Thunk) (delay : Z) (r : Root) : Root :=
  with_timers (timers r ++ [(delay, t)]) r.

Definition finishUnfetchDoc (model : Scope) (collectionName id : string)
    (cb : Callback) (r : Root) : Outcome :=
  let (counter, count) :=
    CollectionCounter_decrement (_fetchedDocs r) collectionName id in
  let r := with_fetchedDocs counter r in
  if negb (bool_decide (count = 0)) then
    callCallback cb (MkCbArgs None (Some count)) r
  else
    _maybeUnloadDoc model collectionName id r >>-
    callCallback cb (MkCbArgs None (Some 0)).

Definition unfetchDoc (model : Scope) (collectionName id : string)
    (cb : option (CbArgs → Cmd)) (r : Root) : Outcome :=
  let cb := wrapCallback model cb in
  let r := context_call (ctx_unfetchDoc collectionName id) r in
  if bool_decide (CollectionCounter_get (_fetchedDocs r)
                    collectionName id = 0)
  then callCallback cb (MkCbArgs None None) r
  else if number_truthy (unloadDelay r) then
    Done (setTimeout (thunk_finishUnfetchDoc model collectionName id cb)
            (unloadDelay r) r)
  else finishUnfetchDoc model collectionName id cb r.

Definition unsubscribeDocCallback (model : Scope)
    (collectionName id : string) (cb : Callback) (err : option Thrown)
    (r : Root) : Outcome :=
  _maybeUnloadDoc model collectionName id r >>-
  (λ r, match err with
        | Some e => if thrown_truthy e then callCallback cb (MkCbArgs (Some e) None) r
                    else callCallback cb (MkCbArgs None (Some 0)) r
        | None => callCallback cb (MkCbArgs None (Some 0)) r
        end).

Definition finishUnsubscribeDoc (model : Scope)
    (collectionName id : string) (cb : Callback) (r : Root) : Outcome :=
  let (counter, count) :=
    CollectionCounter_decrement (_subscribedDocs r) collectionName id in
  let r := with_subscribedDocs counter r in
  if negb (bool_decide (count = 0)) then
    callCallback cb (MkCbArgs None (Some count)) r
  else if fetchOnly r then
    unsubscribeDocCallback model collectionName id cb None r
  else
    match getDoc r collectionName id ≫= shareDoc with
    | None => unsubscribeDocCallback model collectionName id cb None r
    | Some _ =>
      Done (share_call
              (sd_unsubscribe collectionName id
                 (thunk_unsubscribeDocCallback model collectionName id cb))
              r)
    end.

Definition unsubscribeDoc (model : Scope) (collectionName id : string)
    (cb : option (CbArgs → Cmd)) (r : Root) : Outcome :=
  let cb := wrapCallback model cb in
  let r := context_call (ctx_unsubscribeDoc collectionName id) r in
  if bool_decide (CollectionCounter_get (_subscribedDocs r)
                    collectionName id = 0)
  then callCallback cb (MkCbArgs None None) r
  else if number_truthy (unloadDelay r) then
    Done (setTimeout (thunk_finishUnsubscribeDoc model collectionName id cb)
            (unloadDelay r) r)
  else finishUnsubscribeDoc model collectionName id cb r.

(** Running a closure when its timer fires or when the synchronisation
    handle calls it back (with [err], for [unsubscribe]). *)
Definition runThunk (t : Thunk) (err : option Thrown) (r : Root)
    : Outcome :=
  match t with
  | thunk_finishUnfetchDoc model collectionName id cb =>
    finishUnfetchDoc model collectionName id cb r
  | thunk_finishUnsubscribeDoc model collectionName id cb =>
    finishUnsubscribeDoc model collectionName id cb r
  | thunk_unsubscribeDocCallback model collectionName id cb =>
    unsubscribeDocCallback model collectionName id cb err r
  | thunk_retryMaybeUnloadDoc model collectionName id =>
    _maybeUnloadDoc model collectionName id r
  end.
End Callbacks.

(** The options [Model.INITS] receives, as far as subscriptions.ts reads
    them; [None] is a property that is not given. *)
Record Options := MkOptions {
  opt_fetchOnly : option bool;
  opt_unloadDelay : option Z }.

(** subscriptions.ts, 106-114.  The conditional operator binds weaker
    than [||], so line 108 reads
    [(options.unloadDelay || util.isServer) ? 0 : 1000]. *)
Definition initSubscriptions (options : Options) (isServer : bool) (r : Root)
    : Root :=
  let delay :=
    if match opt_unloadDelay options with
       | Some d => number_truthy d
       | None => false
       end || isServer
    then 0%Z else 1000%Z in
  with_subscribedDocs ∅
    (with_fetchedDocs ∅
       (with_options (default false (opt_fetchOnly options)) delay r)).

(** ** Passed contexts (events.js, 204-213) *)

(** The objects that scopes and events refer to live in a heap, a property
    map per location. *)
Module Passed.
Definition with_pass (p : Value) (m : Scope) : Scope :=
  MkScope (_at m) p (_silent m) (_eventContext m).

(** Modelled from the spec: [_child] is not part of the sources at hand.
    Section 9: a derived scope holds a reference to the shared root plus
    its own override fields, which start as the parent's. *)
Definition _child (this : Scope) : Scope :=
  MkScope (_at this) (_pass this) (_silent this) (_eventContext this).

(** [Object.assign(target, ...sources)]: the own properties of each
    source object are copied onto the target, later sources over
    earlier ones; [undefined] and other values without own properties
    are skipped. *)
Definition Object_assign (target : loc) (sources : list Value)
    (h : gmap loc (gmap string Value)) : gmap loc (gmap string Value) :=
  foldl (λ h source,
           match source with
           | VRef l =>
             match h !! l with
             | Some props => alter (λ t, props ∪ t) target h
             | None => h
             end
           | _ => h
           end) h sources.

(** The branch taken where [Object.assign] exists.  [new Passed()] is
    allocated at a location the heap does not use yet. *)
Definition pass (this : Scope) (object : Value) (invert : bool)
    (h : gmap loc (gmap string Value))
    : Scope * gmap loc (gmap string Value) :=
  let model := _child this in
  let passed := fresh (dom h) in
  let h := <[passed := ∅]> h in
  let h := if invert then Object_assign passed [object; _pass this] h
           else Object_assign passed [_pass this; object] h in
  (with_pass (VRef passed) model, h).
End Passed.

(** ** Registering mutation listeners (events.js, 276-427, 533-541) *)

(** What a user's listener function is called with: the event and the
    captures ([useEventObjects]), the positional arguments of the legacy
    style, or the raw [(segments, event)] of a listener without a path. *)
Inductive ListenerInput :=
| EventObjects (event : Event) (captures : list Value)
| LegacyArgs (args : list Value)
| RawEmission (segments : Segments) (event : Event).

(** An argument of [on]: absent, a path string, an options object with
    its [useEventObjects] property, or a function. *)
Inductive Arg :=
| AUndefined
| AString (s : string)
| AOptions (useEventObjects : bool)
| AFunction (cb : ListenerInput → Cmd).

(** A value, or an exception, from code that leaves the root alone. *)
Inductive Try (A : Type) :=
| Returns (a : A)
| Throws (e : Thrown).
Arguments Returns {A} a.
Arguments Throws {A} e.

(** [s.charAt(i)]: the empty string outside the string. *)
Definition charAt (s : string) (i : Z) : string :=
  if (i <? 0)%Z then ""
  else match String.get (Z.to_nat i) s with
       | Some c => String c ""
       | None => ""
       end.

(** [s.split('.')]. *)
Fixpoint split_dot (s : string) : list string :=
  match s with
  | EmptyString => [EmptyString]
  | String c s' =>
    if Ascii.eqb c "." then EmptyString :: split_dot s'
    else match split_dot s' with
         | h :: t => String c h :: t
         | [] => [String c EmptyString]
         end
  end.

(** [segments.join('.')]. *)
Definition join_dot (segments : list string) : string :=
  String.concat "." segments.

Definition normalizePattern (pattern : string) : string :=
  let end_ := (Z.of_nat (String.length pattern) - 1)%Z in
  if bool_decide (charAt pattern end_ = "*") &&
     bool_decide (charAt pattern (end_ - 1) = "*") &&
     negb (bool_decide (charAt pattern (end_ - 2) = ".")) &&
     negb (bool_decide (charAt pattern (end_ - 2) = ""))
  then String.substring 0 (Z.to_nat (end_ - 1)) pattern +:+ ".**"
  else pattern.

Definition createCaptures (captureIndicies : option (list nat))
    (remainingIndex : option nat) (segments : Segments) : list Value :=
  let captures :=
    match captureIndicies with
    | Some indicies =>
      map (λ index, match segments !! index with
                    | Some s => VStr s
                    | None => VUndefined
                    end) indicies
    | None => []
    end in
  match remainingIndex with
  | Some remainingIndex =>
    captures ++ [VStr (join_dot (drop remainingIndex segments))]
  | None => captures
  end.

Definition patternError : Thrown :=
  ErrorObj [Text "Path pattern may contain `**` at end only"] None.

(** The [for] loop of [createMutationListener] (lines 387-401), from
    index [i] on. *)
Fixpoint scanPattern (len i : nat) (rest : list string)
    (captureIndicies : option (list nat)) (remainingIndex : option nat)
    : Try (option (list nat) * option nat) :=
  match rest with
  | [] => Returns (captureIndicies, remainingIndex)
  | segment :: rest' =>
    if bool_decide (segment = "*") then
      scanPattern len (S i) rest'
        (Some (match captureIndicies with
               | Some c => c ++ [i]
               | None => [i]
               end)) remainingIndex
    else if bool_decide (segment = "**") then
      if negb (bool_decide (i = len - 1)) then Throws patternError
      else scanPattern len (S i) rest' captureIndicies (Some i)
    else scanPattern len (S i) rest' captureIndicies remainingIndex
  end.

Definition createMutationListener (pattern : string)
    (eventContext : option string) (cb : Event → list Value → Cmd)
    : Try MutationListener :=
  let patternSegments := split_dot pattern in
  if bool_decide (length patternSegments = 1) &&
     bool_decide (patternSegments !! 0 = Some "**") then
    Returns (MkMutationListener patternSegments eventContext
               (λ segments event, cb event [VStr (join_dot segments)]))
  else
    match scanPattern (length patternSegments) 0 patternSegments None None with
    | Throws e => Throws e
    | Returns (captureIndicies, remainingIndex) =>
      Returns (MkMutationListener patternSegments eventContext
        (if bool_decide (is_Some captureIndicies) ||
            bool_decide (is_Some remainingIndex)
         then λ segments event,
                cb event (createCaptures captureIndicies remainingIndex
                            segments)
         else λ segments event, cb event []))
    end.

Definition createMutationListenerLegacy (type pattern : string)
    (eventContext : option string) (cb : ListenerInput → Cmd)
    : Try MutationListener :=
  let mutationListenerAdapter :=
    if bool_decide (type = "all") then
      λ event captures,
        cb (LegacyArgs (captures ++ [VStr (Event_type event)] ++
                        Event_getArgs event))
    else
      λ event captures, cb (LegacyArgs (captures ++ Event_getArgs event)) in
  createMutationListener pattern eventContext mutationListenerAdapter.

(** [options && options.useEventObjects]. *)
Definition useEventObjects_of (options : Arg) : bool :=
  match options with
  | AOptions b => b
  | _ => false
  end.

(** What registering a listener returns: the listener (or [undefined]
    when the type has no tree), or an exception. *)
Inductive Registration :=
| Registered (listener : option MutationListener) (r : Root)
| RegistrationThrew (e : Thrown) (r : Root).

Section Registering.
(** [model.path(subpath)], which is not part of the sources at hand:
    the pattern a scope resolves an argument to, [None] for
    [undefined]. *)
Variable path : Scope → Arg → option string.

(** The argument sniffing of [getMutationListener] (lines 314-344): the
    pattern, the options and the callback. *)
Definition listenerArguments (model : Scope) (arg1 arg2 arg3 : Arg)
    : Try (option string * Arg * (ListenerInput → Cmd)) :=
  match arg3 with
  | AFunction cb => Returns (path model arg1, arg2, cb)
  | _ =>
    match arg2 with
    | AFunction cb =>
      match path model arg1 with
      | Some pattern => Returns (Some pattern, AUndefined, cb)
      | None => Returns (path model AUndefined, arg1, cb)
      end
    | _ =>
      match arg1 with
      | AFunction cb => Returns (path model AUndefined, AUndefined, cb)
      | _ => Throws (ErrorObj [Text "No expected callback function"] None)
      end
    end
  end.

Definition getMutationListener (model : Scope) (type : string)
    (arg1 arg2 arg3 : Arg) : Try MutationListener :=
  match listenerArguments model arg1 arg2 arg3 with
  | Throws e => Throws e
  | Returns (pattern, options, cb) =>
    match pattern with
    | None | Some "" =>
      Returns (MkMutationListener ["**"] (_eventContext model)
                 (λ segments event, cb (RawEmission segments event)))
    | Some pattern =>
      let pattern := normalizePattern pattern in
      if useEventObjects_of options then
        createMutationListener pattern (_eventContext model)
          (λ event captures, cb (EventObjects event captures))
      else
        createMutationListenerLegacy type pattern (_eventContext model) cb
    end
  end.

Definition _addMutationListener (this : Scope) (type : string)
    (arg1 arg2 arg3 : Arg) (r : Root) : Registration :=
  match _mutationListeners r !! type with
  | None => Registered None r
  | Some tree =>
    match getMutationListener this type arg1 arg2 arg3 with
    | Throws e => RegistrationThrew e r
    | Returns listener =>
      let node := addListener (patternSegments listener) listener tree in
      let r := with_mutationListeners
                 (<[type := node]> (_mutationListeners r)) r in
      match _eventContext this with
      | None => Registered (Some listener) r
      | Some id =>
        let map := _eventContextListeners r in
        let listeners :=
          match map !! id with
          | Some listeners => listeners ++ [listener]
          | None => [listener]
          end in
        Registered (Some listener)
          (with_eventContextListeners (<[id := listeners]> map) r)
      end
    end
  end.
End Registering.

(** ** A small model to run *)

Module Example.
Definition model : Scope := rootScope 1%positive.

(** [tree.addListener] on the tree of one event type. *)
Definition listen (type : string) (l : MutationListener) (r : Root) : Root :=
  with_mutationListeners
    (alter (addListener (patternSegments l) l) type (_mutationListeners r))
    r.

(** A listener on [n] that answers a change to a number below [bound]
    with a change to the next number. *)
Definition countTo (bound : Z) : MutationListener :=
  MkMutationListener ["n"] None
    (λ segments event,
       match event with
       | ChangeEvent (VNum v) _ passed =>
         if (v <? bound)%Z
         then Emit model segments
                (ChangeEvent (VNum (v + 1)) (VNum v) passed) Ret
         else Ret
       | _ => Ret
       end).

(** A listener that answers every event with the same event. *)
Definition echo : MutationListener :=
  MkMutationListener ["n"] None
    (λ segments event, Emit model segments event Ret).

Definition quiet (pattern : list string) : MutationListener :=
  MkMutationListener pattern None (λ _ _, Ret).

Definition faulty (message : string) : MutationListener :=
  MkMutationListener ["n"] None
    (λ _ _, Throw (ErrorObj [Text message] None)).

Definition change (v : Z) : Event :=
  ChangeEvent (VNum v) (VNum (v - 1)) (VRef 1%positive).

Definition start : Root := initEvents blankRoot.

(** Three chained re-triggers, watched by an immediate listener and by
    a listener of type [all]. *)
Definition counting : Root :=
  listen "all" (quiet ["**"])
    (listen "changeImmediate" (quiet ["n"])
       (listen "change" (countTo 3) start)).

(** A listener that re-triggers itself without end. *)
Definition looping : Root := listen "change" echo start.

Definition failing : Root :=
  listen "change" (quiet ["n"]) (listen "change" (faulty "boom") start).

(** A root on which an emission is already in flight. *)
Definition busy : Root :=
  with_emittingMutation true
    (listen "changeImmediate" (quiet ["*"]) counting).
End Example.

Module ExampleCallbacks.

(** Node's emitter with no handler for ['error']: the error is thrown. *)
Definition unhandled (type : string) (err : Thrown) (r : Root) : Outcome :=
  Threw err r.

End ExampleCallbacks.

Module ExamplePassed.
(** The root's empty [Passed] object at 1, [{from: "x"}] at 2 and
    [{to: "y", from: "z"}] at 3. *)
Definition heap : gmap loc (gmap string Value) :=
  {[ 1%positive := ∅;
     2%positive := {[ "from" := VStr "x" ]};
     3%positive := {[ "to" := VStr "y"; "from" := VStr "z" ]} ]}.

Definition first : Scope * gmap loc (gmap string Value) :=
  Passed.pass Example.model (VRef 2%positive) false heap.

Definition second : Scope * gmap loc (gmap string Value) :=
  Passed.pass first.1 (VRef 3%positive) true first.2.
End ExamplePassed.

(** A [**] segment that is not the last segment of the pattern. *)
Definition tail_wildcard_misplaced (patternSegments : list string) : Prop :=
  ∃ i, patternSegments !! i = Some "**" ∧ i ≠ length patternSegments - 1.

Module ExampleRegistration.
(** Paths as the root scope resolves them: a string is the pattern, no
    argument is the scope's own empty path, anything else is not a
    path. *)
Definition rootPath (model : Scope) (subpath : Arg) : option string :=
  match subpath with
  | AString s => Some s
  | AUndefined => Some ""
  | _ => None
  end.

Definition callback (input : ListenerInput) : Cmd := Ret.
End ExampleRegistration.

(** The document is held: by a direct fetch, by a direct subscribe, or by
    a fetched or subscribed query of its collection that lists its id with
    a positive count. *)
Definition referenced (r : Root) (collectionName id : string) : Prop :=
  0 < CollectionCounter_get (_fetchedDocs r) collectionName id ∨
  0 < CollectionCounter_get (_subscribedDocs r) collectionName id ∨
  ∃ queries hash query n,
    _queries r !! collectionName = Some queries ∧
    queries !! hash = Some query ∧
    (0 < fetchCount query ∨ 0 < subscribeCount query)%Z ∧
    idMap query !! id = Some n ∧ (0 < n)%Z.

Module ExampleDocs.
Definition post : Doc := MkDoc (VStr "hello") (Some (MkShareDoc true false)).

Definition draft : Doc := MkDoc (VStr "draft") (Some (MkShareDoc true true)).

(** A server-side root holding two documents, with a listener for
    [unload] events below [posts]. *)
Definition loaded : Root :=
  with_collections {[ "posts" := {[ "1" := post; "2" := draft ]} ]}
    (initSubscriptions (MkOptions None None) true
       (Example.listen "unload" (Example.quiet ["posts"; "*"])
          Example.start)).

(** The same with a subscribed query that lists document 1. *)
Definition queried : Root :=
  with_queries
    {[ "posts" := {[ "hash" := MkQuery 0 1 {[ "1" := 1%Z ]} ]} ]} loaded.

(** A client-side root configured with [unloadDelay: 500], and one
    without the option, each with document 1 fetched once. *)
Definition configured : Root :=
  with_fetchedDocs {[ "posts" := {[ "1" := 1 ]} ]}
    (initSubscriptions (MkOptions None (Some 500%Z)) false loaded).

Definition unconfigured : Root :=
  with_fetchedDocs {[ "posts" := {[ "1" := 1 ]} ]}
    (initSubscriptions (MkOptions None None) false loaded).
End ExampleDocs.


(** ** Reading listeners and patterns *)

(** [event.passed]. *)
Definition Event_passed (e : Event) : Value :=
  match e with
  | ChangeEvent _ _ passed => passed
  | LoadEvent _ passed => passed
  | UnloadEvent _ passed => passed
  | InsertEvent _ _ passed => passed
  | RemoveEvent _ _ passed => passed
  | MoveEvent _ _ _ passed => passed
  end.

(** The positions of the [*] segments of a pattern, counted from [i]. *)
Fixpoint starIndices (patternSegments : list string) (i : nat) : list nat :=
  match patternSegments with
  | [] => []
  | p :: ps =>
    (if bool_decide (p = "*") then [i] else []) ++ starIndices ps (S i)
  end.

(** What a pattern captures from a path: the path segment under each
    [*], in order, and under a final [**] the rest of the path joined by
    dots. *)
Definition wildcardCaptures (patternSegments : list string)
    (segments : Segments) : list Value :=
  map (λ index, match segments !! index with
                | Some s => VStr s
                | None => VUndefined
                end) (starIndices patternSegments 0) ++
  if bool_decide (last patternSegments = Some "**")
  then [VStr (join_dot (drop (length patternSegments - 1) segments))]
  else [].

(** A pattern matches a path: a literal segment matches itself, [*] any
    one segment, and a final [**] whatever is left, also nothing. *)
Fixpoint pattern_matches (patternSegments : list string)
    (segments : Segments) : Prop :=
  match patternSegments with
  | [] => segments = []
  | p :: ps =>
    if decide (p = "**") then ps = []
    else match segments with
         | [] => False
         | s :: rest => (p = "*" ∨ p = s) ∧ pattern_matches ps rest
         end
  end.

(** [silent(value)] (events.js, 234-238); [value] is [None] for a call
    without an argument or with [null], and otherwise the truth value of
    the argument. *)
Definition silent (this : Scope) (value : option bool) : Scope :=
  let model := Passed._child this in
  MkScope (_at model) (_pass model)
    (match value with None => true | Some b => b end) (_eventContext model).

Module ExampleCounts.
(** [ExampleDocs.loaded] with document 1 fetched twice and subscribed
    once. *)
Definition held : Root :=
  with_subscribedDocs {[ "posts" := {[ "1" := 1 ]} ]}
    (with_fetchedDocs {[ "posts" := {[ "1" := 2 ]} ]} ExampleDocs.loaded).

(** [ExampleDocs.loaded] with document 1 fetched once. *)
Definition fetchedOnce : Root :=
  with_fetchedDocs {[ "posts" := {[ "1" := 1 ]} ]} ExampleDocs.loaded.

(** [ExampleDocs.loaded] with document 1 subscribed once. *)
Definition subscribedOnce : Root :=
  with_subscribedDocs {[ "posts" := {[ "1" := 1 ]} ]} ExampleDocs.loaded.
End ExampleCounts.

(** Every state the outcome can end in has the in-flight flag set. *)
Definition stays_inflight (o : Outcome) : Prop :=
  ∀ r', final o = Some r' → _emittingMutation r' = true.

Module ExampleStuck.
(** The root that the emission of a change leaves behind on
    [Example.failing], whose first listener throws. *)
Definition stuck : Root :=
  default blankRoot
    (final (_emitMutation 2 Example.model ["n"] (Example.change 0)
              Example.failing)).
End ExampleStuck.

(** The context [pass] builds from the inherited context and the
    properties of the object: [∪] keeps the left value of a key that
    both have. *)
Definition merged_context (invert : bool)
    (inherited props : gmap string Value) : gmap string Value :=
  if invert then inherited ∪ props else props ∪ inherited.

(** * Properties *)

(** The listener tree on the patterns of Section 8 of the specification:
    [a.*] matches one more segment, [a.**] any suffix, and listeners of
    one pattern are found in the order they were added. *)
Example getWildcardListeners_patterns :
  let one := Example.quiet ["a"; "*"] in
  let rest := Example.quiet ["a"; "**"] in
  let tree := addListener ["a"; "**"] rest
                (addListener ["a"; "*"] one emptyNode) in
  getWildcardListeners tree ["a"] = [rest] ∧
  getWildcardListeners tree ["a"; "x"] = [rest; one] ∧
  getWildcardListeners tree ["a"; "x"; "y"] = [rest] ∧
  getWildcardListeners tree ["b"] = [] ∧
  getWildcardListeners
    (addListener ["a"] rest (addListener ["a"] one emptyNode)) ["a"]
  = [one; rest].
Proof. repeat split; vm_compute; reflexivity. Qed.

Lemma andThen_Done o k r' :
  o >>- k = Done r' → ∃ r1, o = Done r1 ∧ k r1 = Done r'.
Proof. destruct o; simpl; [eauto | discriminate | discriminate]. Qed.

Lemma andThen_Done_l r k : Done r >>- k = k r.
Proof. done. Qed.


Lemma dispatched_app h1 h2 : dispatched (h1 ++ h2) = dispatched h1 ++ dispatched h2.
Proof. apply List.filter_app. Qed.

Lemma enqueued_app h1 h2 : enqueued (h1 ++ h2) = enqueued h1 ++ enqueued h2.
Proof.
  induction h1 as [|e h1 IH]; [done|].
  destruct e; simpl; by rewrite IH.
Qed.

Lemma is_immediate_immediateType event :
  is_immediate (Event_immediateType event) = true.
Proof. by destruct event. Qed.

Lemma is_immediate_type event : is_immediate (Event_type event) = false.
Proof. by destruct event. Qed.

Lemma frame_refl r : frame r r.
Proof. constructor; try done. exists []. by rewrite app_nil_r. Qed.

Lemma frame_trans r1 r2 r3 : frame r1 r2 → frame r2 r3 → frame r1 r3.
Proof.
  intros [? ? ? ? ? ? ? ? ? ? [Δ1 H1]] [? ? ? ? ? ? ? ? ? ? [Δ2 H2]].
  constructor; try congruence.
  exists (Δ1 ++ Δ2). by rewrite H2, H1, <- app_assoc.
Qed.

Lemma frame_note e r : frame r (note e r).
Proof. constructor; try done. by exists [e]. Qed.

Lemma frame_collections d r : frame r (with_collections d r).
Proof. constructor; try done. exists []. by rewrite app_nil_r. Qed.

Lemma frame_emitting b r : frame r (with_emittingMutation b r).
Proof. constructor; try done. exists []. by rewrite app_nil_r. Qed.

Lemma frame_queue q r : frame r (with_mutationEventQueue q r).
Proof. constructor; try done. exists []. by rewrite app_nil_r. Qed.

Lemma frame_enqueue segments event r : frame r (enqueue segments event r).
Proof. constructor; try done. by exists [Enqueued segments event]. Qed.

Lemma frame_out_andThen r o k :
  frame_out r o → (∀ r1, frame r r1 → frame_out r (k r1)) →
  frame_out r (o >>- k).
Proof. destruct o; simpl; auto. Qed.

Lemma frame_out_trans r r1 o : frame r r1 → frame_out r1 o → frame_out r o.
Proof. destruct o; simpl; eauto using frame_trans. Qed.

Section DispatchFrame.
Variable emit : Scope → Segments → Event → Root → Outcome.
Hypothesis emit_frame : ∀ m segments event r,
  frame_out r (emit m segments event r).

Lemma runCmd_frame c r : frame_out r (runCmd emit c r).
Proof.
  revert r; induction c as [|m s e k IH|k IH|d k IH|e]; intros r; simpl.
  - apply frame_refl.
  - apply frame_out_andThen; [apply emit_frame|].
    intros r1 Hr1. eapply frame_out_trans; [exact Hr1 | apply IH].
  - apply IH.
  - eapply frame_out_trans; [apply frame_collections | apply IH].
  - apply frame_refl.
Qed.

Lemma callListeners_frame type segments event ls r :
  frame_out r (callListeners emit type segments event ls r).
Proof.
  revert r; induction ls as [|l ls IH]; intros r; simpl.
  - apply frame_refl.
  - apply frame_out_andThen.
    + eapply frame_out_trans; [apply frame_note | apply runCmd_frame].
    + intros r1 Hr1. eapply frame_out_trans; [exact Hr1|].
      eapply frame_out_trans; [apply frame_note | apply IH].
Qed.

Lemma _callMutationListeners_frame type segments event r :
  frame_out r (_callMutationListeners emit type segments event r).
Proof.
  unfold _callMutationListeners.
  destruct (_mutationListeners r !! type); simpl.
  - apply callListeners_frame.
  - apply frame_refl.
Qed.

Lemma dispatchQueue_frame queue r :
  frame_out r (dispatchQueue emit queue r).
Proof.
  revert r; induction queue as [|[s e] q IH]; intros r; simpl.
  - apply frame_refl.
  - repeat apply frame_out_andThen.
    + apply _callMutationListeners_frame.
    + intros r1 Hr1. eapply frame_out_trans;
        [exact Hr1 | apply _callMutationListeners_frame].
    + intros r1 Hr1. eapply frame_out_trans; [exact Hr1 | apply IH].
Qed.

Lemma drain_frame limit r : frame_out r (drain emit limit r).
Proof.
  revert r; induction limit as [|n IH]; intros r; simpl;
    destruct (_mutationEventQueue r); simpl; try apply frame_refl.
  apply frame_out_andThen.
  - eapply frame_out_trans; [apply frame_queue | apply dispatchQueue_frame].
  - intros r1 Hr1. eapply frame_out_trans; [exact Hr1 | apply IH].
Qed.

Lemma afterImmediate_frame segments event r :
  frame_out r (afterImmediate emit segments event r).
Proof.
  unfold afterImmediate.
  destruct (_emittingMutation r); [apply frame_enqueue|].
  repeat apply frame_out_andThen.
  - eapply frame_out_trans;
      [apply frame_emitting | apply _callMutationListeners_frame].
  - intros r2 Hr2. eapply frame_out_trans;
      [exact Hr2 | apply _callMutationListeners_frame].
  - intros r2 Hr2. eapply frame_out_trans; [exact Hr2 | apply drain_frame].
  - intros r2 Hr2. eapply frame_out_trans;
      [exact Hr2 | apply frame_emitting].
Qed.

Lemma emitMutation_body_frame m segments event r :
  frame_out r (emitMutation_body emit m segments event r).
Proof.
  unfold emitMutation_body. destruct (_silent m); [apply frame_refl|].
  apply frame_out_andThen; [apply _callMutationListeners_frame|].
  intros r1 Hr1. eapply frame_out_trans;
    [exact Hr1 | apply afterImmediate_frame].
Qed.
End DispatchFrame.

Lemma _emitMutation_frame fuel m segments event r :
  frame_out r (_emitMutation fuel m segments event r).
Proof.
  revert m segments event r; induction fuel as [|fuel IH]; intros; simpl;
    [done|]. by apply emitMutation_body_frame.
Qed.

(** ** Calls made while an emission is in flight, and from the idle state *)

Ltac invDone :=
  repeat match goal with
  | H : _ >>- _ = Done _ |- _ =>
    let r := fresh "r" in
    let H' := fresh H in
    apply andThen_Done in H as (r & H & H')
  end.

Lemma inflight_post_refl r : _emittingMutation r = true → inflight_post r r [].
Proof.
  intros Hf. split; [done|]. exists []. by rewrite !app_nil_r.
Qed.

Lemma inflight_post_trans r r1 r2 D1 D2 D :
  inflight_post r r1 D1 → inflight_post r1 r2 D2 → D = D1 ++ D2 →
  inflight_post r r2 D.
Proof.
  intros [_ (Δ1 & H1 & HD1 & HQ1)] [Hf (Δ2 & H2 & HD2 & HQ2)] ->.
  split; [done|]. exists (Δ1 ++ Δ2).
  rewrite H2, H1, HQ2, HQ1, dispatched_app, enqueued_app, HD1, HD2.
  by rewrite <- !app_assoc.
Qed.

Lemma inflight_post_called type segments event l r :
  _emittingMutation r = true →
  inflight_post r (note (Invoked type segments event l) r)
    (dispatched [Invoked type segments event l]).
Proof.
  intros Hf. split; [done|]. eexists; split; [done|].
  split; [done|]. simpl. by rewrite app_nil_r.
Qed.

Lemma inflight_post_returned type segments event l r :
  _emittingMutation r = true →
  inflight_post r (note (Returned type segments event l) r)
    (dispatched [Returned type segments event l]).
Proof.
  intros Hf. split; [done|]. eexists; split; [done|].
  split; [done|]. simpl. by rewrite app_nil_r.
Qed.

Lemma inflight_post_enqueue segments event r :
  _emittingMutation r = true →
  inflight_post r (enqueue segments event r) [] ∧
  queue_list (enqueue segments event r) = queue_list r ++ [(segments, event)].
Proof.
  intros Hf.
  assert (queue_list (enqueue segments event r)
          = queue_list r ++ [(segments, event)]) as Hq.
  { unfold queue_list, enqueue; simpl. by destruct (_mutationEventQueue r). }
  split; [|done]. split; [done|].
  exists [Enqueued segments event]. by rewrite Hq.
Qed.

Lemma dispatched_block_immediate type segments event ls :
  is_immediate type = true → dispatched (block type segments event ls) = [].
Proof.
  intros Hi. induction ls as [|l ls IH]; [done|].
  simpl. by rewrite Hi.
Qed.

Lemma dispatched_block_ordered type segments event ls :
  is_immediate type = false →
  dispatched (block type segments event ls) = block type segments event ls.
Proof.
  intros Hi. induction ls as [|l ls IH]; [done|].
  simpl. rewrite Hi; simpl. f_equal. f_equal. exact IH.
Qed.

Lemma treeOf_frame r r' type : frame r r' → treeOf r' type = treeOf r type.
Proof. intros Hfr. unfold treeOf. by rewrite (frame_mutationListeners _ _ Hfr). Qed.

Lemma delivery_frame r r' p : frame r r' → delivery r' p = delivery r p.
Proof. intros Hfr. unfold delivery. by rewrite !(treeOf_frame r r'). Qed.

Lemma flat_map_delivery_frame r r' q :
  frame r r' → flat_map (delivery r') q = flat_map (delivery r) q.
Proof.
  intros Hfr. induction q as [|p q IH]; [done|].
  simpl. by rewrite IH, (delivery_frame r r').
Qed.

Section DispatchOrder.
Variable emit : Scope → Segments → Event → Root → Outcome.
Hypothesis emit_frame : ∀ m segments event r,
  frame_out r (emit m segments event r).
Hypothesis emit_inflight : ∀ m segments event r r',
  _emittingMutation r = true → emit m segments event r = Done r' →
  inflight_post r r' [].
Hypothesis emit_idle : ∀ m segments event r r',
  idle r → emit m segments event r = Done r' → idle r'.

Lemma runCmd_inflight c r r' :
  _emittingMutation r = true → runCmd emit c r = Done r' →
  inflight_post r r' [].
Proof.
  revert r; induction c as [|m s e k IH|k IH|d k IH|e]; intros r Hf H;
    simpl in H.
  - injection H as <-. by apply inflight_post_refl.
  - invDone. pose proof (emit_inflight _ _ _ _ _ Hf H) as H1.
    eapply inflight_post_trans; [exact H1 | |done].
    apply IH; [apply H1 | done].
  - by eapply IH.
  - apply (IH (with_collections d r)) in H; [|done].
    destruct H as [Hf' (Δ & Hh & HD & HQ)]. split; [done|]. by exists Δ.
  - discriminate.
Qed.

Lemma callListeners_inflight type segments event ls r r' :
  _emittingMutation r = true →
  callListeners emit type segments event ls r = Done r' →
  inflight_post r r' (dispatched (block type segments event ls)).
Proof.
  revert r; induction ls as [|l ls IH]; intros r Hf H; simpl in H.
  - injection H as <-. by apply inflight_post_refl.
  - invDone.
    pose proof (inflight_post_called type segments event l r Hf) as H1.
    pose proof (runCmd_inflight _ _ _ (proj1 H1) H) as H2.
    pose proof (inflight_post_returned type segments event l r0 (proj1 H2))
      as H3.
    pose proof (IH _ (proj1 H3) H0) as H4.
    eapply inflight_post_trans; [exact H1| |].
    { eapply inflight_post_trans; [exact H2| |reflexivity].
      eapply inflight_post_trans; [exact H3|exact H4|reflexivity]. }
    change (block type segments event (l :: ls))
      with ([Invoked type segments event l] ++
            [Returned type segments event l] ++
            block type segments event ls).
    by rewrite !dispatched_app.
Qed.

Lemma _callMutationListeners_inflight type segments event r r' :
  _emittingMutation r = true →
  _callMutationListeners emit type segments event r = Done r' →
  inflight_post r r'
    (dispatched (block type segments event
                   (getWildcardListeners (treeOf r type) segments))).
Proof.
  unfold _callMutationListeners, treeOf. intros Hf H.
  destruct (_mutationListeners r !! type) as [tree|]; [|discriminate].
  by apply callListeners_inflight.
Qed.

Lemma dispatchQueue_inflight queue r r' :
  _emittingMutation r = true → dispatchQueue emit queue r = Done r' →
  inflight_post r r' (flat_map (delivery r) queue).
Proof.
  revert r; induction queue as [|[s e] q IH]; intros r Hf H; simpl in H.
  - injection H as <-. by apply inflight_post_refl.
  - invDone.
    pose proof (_callMutationListeners_inflight _ _ _ _ _ Hf H) as H2.
    pose proof (_callMutationListeners_frame emit emit_frame
                  (Event_type e) s e r) as F2.
    rewrite H in F2; simpl in F2.
    pose proof (_callMutationListeners_inflight _ _ _ _ _ (proj1 H2) H1)
      as H3.
    pose proof (_callMutationListeners_frame emit emit_frame "all" s e r1)
      as F3.
    rewrite H1 in F3; simpl in F3.
    pose proof (IH _ (proj1 H3) H0) as H4.
    rewrite dispatched_block_ordered in H2 by apply is_immediate_type.
    rewrite dispatched_block_ordered in H3 by done.
    rewrite (treeOf_frame r r1) in H3 by done.
    rewrite (flat_map_delivery_frame r r0) in H4
      by (eapply frame_trans; eassumption).
    eapply inflight_post_trans; [exact H2| |].
    { eapply inflight_post_trans; [exact H3|exact H4|reflexivity]. }
    simpl. unfold delivery at 1; simpl. by rewrite <- app_assoc.
Qed.

(** The drain loop delivers what was pending and everything enqueued
    meanwhile, in that order, and stops with an empty queue. *)
Lemma drain_inflight limit r r' :
  _emittingMutation r = true → drain emit limit r = Done r' →
  _emittingMutation r' = true ∧ _mutationEventQueue r' = None ∧
  ∃ Δ, history r' = history r ++ Δ ∧
       dispatched Δ = flat_map (delivery r) (queue_list r ++ enqueued Δ).
Proof.
  revert r; induction limit as [|n IH]; intros r Hf H; simpl in H;
    destruct (_mutationEventQueue r) as [q|] eqn:Hq; try discriminate.
  - injection H as <-. repeat split; [done..|].
    exists []. unfold queue_list. by rewrite Hq, app_nil_r.
  - invDone.
    pose proof (dispatchQueue_inflight q (with_mutationEventQueue None r)
                  r0 Hf H) as [Hf1 (Δ1 & Hh1 & HD1 & HQ1)].
    pose proof (dispatchQueue_frame emit emit_frame q
                  (with_mutationEventQueue None r)) as F1.
    rewrite H in F1; simpl in F1.
    destruct (IH _ Hf1 H0) as (Hf2 & Hq2 & Δ2 & Hh2 & HD2).
    repeat split; [done..|]. exists (Δ1 ++ Δ2).
    split; [by rewrite Hh2, Hh1, <- app_assoc|].
    rewrite dispatched_app, HD1, HD2, HQ1, enqueued_app.
    rewrite (flat_map_delivery_frame (with_mutationEventQueue None r) r0)
      by done.
    unfold queue_list at 2; rewrite Hq; simpl.
    by rewrite <- flat_map_app.
  - injection H as <-. repeat split; [done..|].
    exists []. unfold queue_list. by rewrite Hq, app_nil_r.
Qed.

Lemma runCmd_idle c r r' : idle r → runCmd emit c r = Done r' → idle r'.
Proof.
  revert r; induction c as [|m s e k IH|k IH|d k IH|e]; intros r Hi H;
    simpl in H.
  - by injection H as <-.
  - invDone. eauto.
  - eauto.
  - eapply IH; [|exact H]. exact Hi.
  - discriminate.
Qed.

Lemma callListeners_idle type segments event ls r r' :
  idle r → callListeners emit type segments event ls r = Done r' → idle r'.
Proof.
  revert r; induction ls as [|l ls IH]; intros r Hi H; simpl in H.
  - by injection H as <-.
  - invDone. eapply IH; [|exact H0].
    eapply (runCmd_idle _ _ r0) in H; [exact H | exact Hi].
Qed.

Lemma _callMutationListeners_idle type segments event r r' :
  idle r → _callMutationListeners emit type segments event r = Done r' →
  idle r'.
Proof.
  unfold _callMutationListeners. intros Hi H.
  destruct (_mutationListeners r !! type); [|discriminate].
  by eapply callListeners_idle.
Qed.

(** In flight, [_emitMutation] runs the immediate listeners and appends
    the pair to the queue. *)
Lemma emitMutation_body_enqueues m segments event r r1 :
  _silent m = false → _emittingMutation r = true →
  _callMutationListeners emit (Event_immediateType event) segments event r
    = Done r1 →
  emitMutation_body emit m segments event r
    = Done (enqueue segments event r1) ∧
  inflight_post r r1 [].
Proof.
  intros Hs Hf H. unfold emitMutation_body, afterImmediate.
  rewrite Hs, H; simpl.
  pose proof (_callMutationListeners_inflight _ _ _ _ _ Hf H) as H1.
  rewrite dispatched_block_immediate in H1
    by apply is_immediate_immediateType.
  by rewrite (proj1 H1).
Qed.

Lemma emitMutation_body_inflight m segments event r r' :
  _emittingMutation r = true →
  emitMutation_body emit m segments event r = Done r' →
  inflight_post r r' [].
Proof.
  intros Hf H. destruct (_silent m) eqn:Hs.
  - unfold emitMutation_body in H. rewrite Hs in H. injection H as <-.
    by apply inflight_post_refl.
  - assert (∃ r1, _callMutationListeners emit (Event_immediateType event)
                    segments event r = Done r1) as [r1 H1].
    { unfold emitMutation_body in H. rewrite Hs in H. invDone. eauto. }
    destruct (emitMutation_body_enqueues m _ _ _ _ Hs Hf H1) as [H2 H3].
    rewrite H2 in H. injection H as <-.
    eapply inflight_post_trans;
      [exact H3 | apply inflight_post_enqueue, H3 | done].
Qed.

(** The ordered phase of an emission that found no other in flight:
    the event's own listeners, the [all] listeners, then whatever was
    pending or got enqueued, in queue order. *)
Lemma ordered_phase segments event r1 r' :
  _callMutationListeners emit (Event_type event) segments event
    (with_emittingMutation true r1) >>-
  _callMutationListeners emit "all" segments event >>-
  drain emit 1000 >>-
  (λ r4, Done (with_emittingMutation false r4)) = Done r' →
  idle r' ∧
  ∃ Δ, history r' = history r1 ++ Δ ∧
       dispatched Δ = delivery r1 (segments, event) ++
                      flat_map (delivery r1) (queue_list r1 ++ enqueued Δ).
Proof.
  intros H.
  apply andThen_Done in H as (r4 & H & H4). injection H4 as <-.
  apply andThen_Done in H as (r3 & H & H3).
  apply andThen_Done in H as (r2 & H & H2).
  set (rA := with_emittingMutation true r1) in *.
  assert (_emittingMutation rA = true) as HfA by done.
  pose proof (_callMutationListeners_inflight _ _ _ _ _ HfA H)
    as [Hf2 (Δ1 & Hh1 & HD1 & HQ1)].
  pose proof (_callMutationListeners_frame emit emit_frame
                (Event_type event) segments event rA) as F2.
  rewrite H in F2; simpl in F2.
  pose proof (_callMutationListeners_inflight _ _ _ _ _ Hf2 H2)
    as [Hf3 (Δ2 & Hh2 & HD2 & HQ2)].
  pose proof (_callMutationListeners_frame emit emit_frame
                "all" segments event r2) as F3.
  rewrite H2 in F3; simpl in F3.
  destruct (drain_inflight _ _ _ Hf3 H3) as (Hf4 & Hq4 & Δ3 & Hh3 & HD3).
  rewrite dispatched_block_ordered in HD1 by apply is_immediate_type.
  rewrite dispatched_block_ordered in HD2 by done.
  rewrite (treeOf_frame rA r2) in HD2 by done.
  rewrite (flat_map_delivery_frame rA r3) in HD3
    by (eapply frame_trans; eassumption).
  split; [done|]. exists (Δ1 ++ Δ2 ++ Δ3). split.
  - simpl. rewrite Hh3, Hh2, Hh1. by rewrite <- !app_assoc.
  - rewrite !dispatched_app, HD1, HD2, HD3, HQ2, HQ1, !enqueued_app.
    subst rA.
    rewrite (flat_map_delivery_frame r1 (with_emittingMutation true r1))
      by apply frame_emitting.
    rewrite !(treeOf_frame r1 (with_emittingMutation true r1))
      by apply frame_emitting.
    change (queue_list (with_emittingMutation true r1))
      with (queue_list r1).
    unfold delivery at 2; simpl. by rewrite <- !app_assoc.
Qed.

Lemma emitMutation_body_idle m segments event r r' :
  idle r → emitMutation_body emit m segments event r = Done r' → idle r'.
Proof.
  intros Hi H. unfold emitMutation_body in H.
  destruct (_silent m); [by injection H as <-|].
  apply andThen_Done in H as (r1 & H & H').
  pose proof (_callMutationListeners_idle _ _ _ _ _ Hi H) as [Hf1 Hq1].
  unfold afterImmediate in H'.
  rewrite Hf1 in H'. by apply ordered_phase in H' as [? _].
Qed.
End DispatchOrder.

Lemma _emitMutation_inflight_idle fuel :
  (∀ m segments event r r',
     _emittingMutation r = true →
     _emitMutation fuel m segments event r = Done r' →
     inflight_post r r' []) ∧
  (∀ m segments event r r',
     idle r → _emitMutation fuel m segments event r = Done r' → idle r').
Proof.
  induction fuel as [|fuel [IH1 IH2]]; [by split|].
  split; intros m segments event r r'; simpl.
  - apply emitMutation_body_inflight;
      solve [apply _emitMutation_frame | done].
  - apply emitMutation_body_idle;
      solve [apply _emitMutation_frame | done].
Qed.

Lemma _emitMutation_inflight fuel m segments event r r' :
  _emittingMutation r = true →
  _emitMutation fuel m segments event r = Done r' → inflight_post r r' [].
Proof. apply _emitMutation_inflight_idle. Qed.

Lemma _emitMutation_idle fuel m segments event r r' :
  idle r → _emitMutation fuel m segments event r = Done r' → idle r'.
Proof. apply _emitMutation_inflight_idle. Qed.

Lemma callListeners_invoked emit type segments event ls r r' :
  (∀ m segments event r, frame_out r (emit m segments event r)) →
  callListeners emit type segments event ls r = Done r' →
  ∀ l, l ∈ ls → Invoked type segments event l ∈ history r'.
Proof.
  intros Hfr. revert r; induction ls as [|l0 ls IH]; intros r H l Hl.
  - by apply elem_of_nil in Hl.
  - simpl in H. apply andThen_Done in H as (r1 & H & H').
    apply elem_of_cons in Hl as [->|Hl]; [|by eapply IH].
    pose proof (runCmd_frame emit Hfr (fn l0 segments event)
                  (note (Invoked type segments event l0) r)) as F1.
    rewrite H in F1; simpl in F1.
    pose proof (callListeners_frame emit Hfr type segments event ls
                  (note (Returned type segments event l0) r1)) as F2.
    rewrite H' in F2; simpl in F2.
    destruct (frame_history _ _ F1) as [Δ1 H1].
    destruct (frame_history _ _ F2) as [Δ2 H2].
    rewrite H2; simpl. rewrite H1; simpl.
    rewrite !elem_of_app, list_elem_of_singleton. auto.
Qed.


Lemma drain_passes emit n k r r' :
  passes emit n r = Some r' → drain emit (n + k) r = drain emit k r'.
Proof.
  revert r; induction n as [|n IH]; intros r H; simpl in H.
  - by injection H as <-.
  - destruct (_mutationEventQueue r) as [q|] eqn:Hq; [|discriminate].
    destruct (dispatchQueue emit q _) as [r1| |] eqn:Hd; try discriminate.
    simpl. rewrite Hq, Hd. simpl. by apply IH.
Qed.

(** An emission from the idle state: what the ordered phase adds to the
    history. *)
Lemma idle_emission_delivers fuel m segments event r r' :
  _silent m = false → idle r →
  _emitMutation (S fuel) m segments event r = Done r' →
  ∃ r1 Δ,
    _callMutationListeners (_emitMutation fuel)
      (Event_immediateType event) segments event r = Done r1 ∧
    history r' = history r1 ++ Δ ∧
    dispatched Δ = delivery r (segments, event) ++
                   flat_map (delivery r) (enqueued Δ) ∧
    idle r'.
Proof.
  intros Hs Hi H.
  simpl in H. unfold emitMutation_body in H. rewrite Hs in H.
  apply andThen_Done in H as (r1 & H & H').
  pose proof (_callMutationListeners_idle _ (_emitMutation_idle fuel)
                _ _ _ _ _ Hi H) as [Hf1 Hq1].
  pose proof (_callMutationListeners_frame _ (_emitMutation_frame fuel)
                (Event_immediateType event) segments event r) as F1.
  rewrite H in F1; simpl in F1.
  unfold afterImmediate in H'. rewrite Hf1 in H'.
  apply (ordered_phase _ (_emitMutation_frame fuel)
           (_emitMutation_inflight fuel)) in H' as [Hi' (Δ & Hh & HD)].
  exists r1, Δ. repeat split; try done; try apply Hi'.
  rewrite HD. unfold queue_list. rewrite Hq1; simpl.
  by rewrite (delivery_frame r r1), (flat_map_delivery_frame r r1).
Qed.

(** * The claims about the emitter *)



(** C5.  On a scope that is not silent, once the immediate listeners of
    the event have returned, every one of them has been called, whether
    or not an emission was in flight, and the calls stay in the history of
    whatever state the emission ends in.  When an emission was in flight,
    the call then returns normally with the pair appended at the end of
    the pending queue, and no own-type or [all] listener has been called
    or has returned. *)
Theorem immediate_first_then_enqueue fuel m segments event r r1 :
  _silent m = false →
  _callMutationListeners (_emitMutation fuel) (Event_immediateType event)
    segments event r = Done r1 →
  (∀ l, l ∈ getWildcardListeners
              (treeOf r (Event_immediateType event)) segments →
        Invoked (Event_immediateType event) segments event l ∈ history r1) ∧
  (∀ r', final (_emitMutation (S fuel) m segments event r) = Some r' →
         ∃ Δ, history r' = history r1 ++ Δ) ∧
  (_emittingMutation r = true →
   _emitMutation (S fuel) m segments event r
     = Done (enqueue segments event r1) ∧
   _mutationEventQueue (enqueue segments event r1)
     = Some (queue_list r1 ++ [(segments, event)]) ∧
   ∃ Δ, history (enqueue segments event r1) = history r ++ Δ ∧
        dispatched Δ = []).
Proof.
  intros Hs H. split; [|split].
  - unfold _callMutationListeners, treeOf in *.
    destruct (_mutationListeners r !! Event_immediateType event) as [tree|];
      [|discriminate].
    simpl. eapply callListeners_invoked;
      [apply (_emitMutation_frame fuel) | exact H].
  - intros r' Hfin. simpl in Hfin. unfold emitMutation_body in Hfin.
    rewrite Hs, H in Hfin; simpl in Hfin.
    pose proof (afterImmediate_frame _ (_emitMutation_frame fuel)
                  segments event r1) as F.
    destruct (afterImmediate _ segments event r1); simpl in *;
      try discriminate; injection Hfin as <-; apply F.
  - intros Hf.
    destruct (emitMutation_body_enqueues _ (_emitMutation_inflight fuel)
                m segments event r r1 Hs Hf H) as [He [Hf1 (Δ & Hh & HD & HQ)]].
    split; [exact He|]. split.
    + unfold enqueue, queue_list; simpl.
      by destruct (_mutationEventQueue r1).
    + exists (Δ ++ [Enqueued segments event]). simpl. rewrite Hh.
      split; [by rewrite app_assoc|]. by rewrite dispatched_app, HD.
Qed.

(** C5, on the model [Example.busy], where an emission is in flight and
    two immediate listeners match. *)
Lemma immediate_first_then_enqueue_witness :
  ∃ r1,
    _callMutationListeners (_emitMutation 1) "changeImmediate" ["n"]
      (Example.change 5) Example.busy = Done r1 ∧
    (∀ l, l ∈ getWildcardListeners
                (treeOf Example.busy "changeImmediate") ["n"] →
          Invoked "changeImmediate" ["n"] (Example.change 5) l ∈ history r1) ∧
    (∀ r', final (_emitMutation 2 Example.model ["n"] (Example.change 5)
                    Example.busy) = Some r' →
           ∃ Δ, history r' = history r1 ++ Δ) ∧
    (_emittingMutation Example.busy = true →
     _emitMutation 2 Example.model ["n"] (Example.change 5) Example.busy
       = Done (enqueue ["n"] (Example.change 5) r1) ∧
     _mutationEventQueue (enqueue ["n"] (Example.change 5) r1)
       = Some (queue_list r1 ++ [(["n"], Example.change 5)]) ∧
     ∃ Δ, history (enqueue ["n"] (Example.change 5) r1)
            = history Example.busy ++ Δ ∧
          dispatched Δ = []).
Proof.
  eexists. split; [vm_compute; reflexivity|].
  apply (immediate_first_then_enqueue 1 Example.model ["n"]
           (Example.change 5) Example.busy).
  - reflexivity.
  - vm_compute; reflexivity.
Defined.

Lemma passes_inflight fuel n r r' :
  _emittingMutation r = true →
  passes (_emitMutation fuel) n r = Some r' → _emittingMutation r' = true.
Proof.
  revert r; induction n as [|n IH]; intros r Hf H; simpl in H.
  - by injection H as <-.
  - destruct (_mutationEventQueue r) as [q|]; [|discriminate].
    destruct (dispatchQueue _ q _) as [r1| |] eqn:Hd; try discriminate.
    apply (dispatchQueue_inflight _ (_emitMutation_frame fuel)
             (_emitMutation_inflight fuel)) in Hd as [Hf1 _]; [|done].
    by eapply IH.
Qed.

(** C2.  Take an emission in which the listeners of the triggering event
    have returned.  If 1000 full passes of the drain loop each find a
    non-empty queue and the queue is non-empty again after the last of
    them, the emission throws the cycle error, whose message carries the
    queue as it is then, and the in-flight flag stays set.  If after some
    [n ≤ 1000] passes the queue is empty, the emission returns normally,
    in the state the passes reached, with the in-flight flag cleared; and
    when it started idle, every event that was enqueued has been
    delivered, in the order of enqueuing. *)
Theorem cycle_cap fuel m segments event r r1 r2 r3 :
  _silent m = false →
  _callMutationListeners (_emitMutation fuel) (Event_immediateType event)
    segments event r = Done r1 →
  _emittingMutation r1 = false →
  _callMutationListeners (_emitMutation fuel) (Event_type event)
    segments event (with_emittingMutation true r1) = Done r2 →
  _callMutationListeners (_emitMutation fuel) "all" segments event r2
    = Done r3 →
  (∀ r' queue,
     passes (_emitMutation fuel) 1000 r3 = Some r' →
     _mutationEventQueue r' = Some queue →
     _emitMutation (S fuel) m segments event r
       = Threw (cycleError queue) r' ∧
     _emittingMutation r' = true) ∧
  (∀ n r',
     n ≤ 1000 → passes (_emitMutation fuel) n r3 = Some r' →
     _mutationEventQueue r' = None →
     _emitMutation (S fuel) m segments event r
       = Done (with_emittingMutation false r') ∧
     (idle r →
      ∃ Δ, history r' = history r1 ++ Δ ∧
           dispatched Δ = delivery r (segments, event) ++
                          flat_map (delivery r) (enqueued Δ))).
Proof.
  intros Hs H1 Hf1 H2 H3.
  assert (_emitMutation (S fuel) m segments event r =
          drain (_emitMutation fuel) 1000 r3 >>-
          (λ r4, Done (with_emittingMutation false r4))) as Hrun.
  { simpl. unfold emitMutation_body, afterImmediate.
    rewrite Hs, H1; simpl. rewrite Hf1, H2; simpl. by rewrite H3. }
  assert (_emittingMutation r3 = true) as Hf3.
  { apply (_callMutationListeners_inflight _ (_emitMutation_inflight fuel))
      in H2 as [Hf2 _]; [|done].
    by apply (_callMutationListeners_inflight _ (_emitMutation_inflight fuel))
      in H3 as [Hf3 _]. }
  split.
  - intros r' queue Hp Hq. split; [|by eapply passes_inflight].
    rewrite Hrun.
    pose proof (drain_passes _ 1000 0 r3 r' Hp) as Hd.
    rewrite Nat.add_0_r in Hd. rewrite Hd. simpl. by rewrite Hq.
  - intros n r' Hn Hp Hq.
    assert (_emitMutation (S fuel) m segments event r
            = Done (with_emittingMutation false r')) as Hdone.
    { rewrite Hrun.
      pose proof (drain_passes _ n (1000 - n) r3 r' Hp) as Hd.
      replace (n + (1000 - n)) with 1000 in Hd by lia. rewrite Hd.
      by destruct (1000 - n); simpl; rewrite Hq. }
    split; [exact Hdone|]. intros Hi.
    destruct (idle_emission_delivers _ _ _ _ _ _ Hs Hi Hdone)
      as (r1' & Δ & H1' & Hh & HD & _).
    rewrite H1 in H1'. injection H1' as <-. by exists Δ.
Qed.

(** C2, on two models: [Example.looping], whose listener re-triggers
    itself for ever, and [Example.counting], with three chained
    re-triggers. *)
Lemma cycle_cap_witness :
  (∃ r', _emitMutation 2 Example.model ["n"] (Example.change 0)
           Example.looping
         = Threw (cycleError [(["n"], Example.change 0)]) r' ∧
         _emittingMutation r' = true) ∧
  (∃ r', _emitMutation 2 Example.model ["n"] (Example.change 0)
           Example.counting = Done r' ∧
         _emittingMutation r' = false ∧
         dispatched (history r') =
           flat_map (delivery Example.counting)
             [(["n"], Example.change 0); (["n"], Example.change 1);
              (["n"], Example.change 2); (["n"], Example.change 3)]).
Proof.
  split.
  - edestruct (cycle_cap 1 Example.model ["n"] (Example.change 0)
                 Example.looping) as [Hcap _];
      [reflexivity | vm_compute; reflexivity | reflexivity
      | vm_compute; reflexivity | vm_compute; reflexivity |].
    edestruct Hcap as [Hthrew Hflag];
      [vm_compute; reflexivity | vm_compute; reflexivity |].
    eexists. split; [exact Hthrew | exact Hflag].
  - edestruct (cycle_cap 1 Example.model ["n"] (Example.change 0)
                 Example.counting) as [_ Hok];
      [reflexivity | vm_compute; reflexivity | reflexivity
      | vm_compute; reflexivity | vm_compute; reflexivity |].
    eexists.
    split; [apply (Hok 3); [lia | vm_compute; reflexivity | reflexivity]|].
    split; vm_compute; reflexivity.
Defined.



(** * The claim about passed contexts *)

Lemma lookup_union_first (m1 m2 : gmap string Value) key :
  (m1 ∪ m2) !! key = match m1 !! key with
                     | Some v => Some v
                     | None => m2 !! key
                     end.
Proof.
  rewrite lookup_union. by destruct (m1 !! key), (m2 !! key).
Qed.

(** C7.  [pass(object, invert)] on a scope whose context is the object at
    [parent] returns a scope that differs from the parent only in [_pass],
    which refers to a new object; every object that was in the heap,
    the parent's context among them, is as before; and the new context
    holds, key by key, the object's value over the parent's when [invert]
    is false and the parent's value over the object's when it is true. *)
Theorem pass_merges_contexts this object invert
    (h : gmap loc (gmap string Value)) parent inherited supplied props :
  _pass this = VRef parent → h !! parent = Some inherited →
  object = VRef supplied → h !! supplied = Some props →
  ∃ passed context,
    _pass (Passed.pass this object invert h).1 = VRef passed ∧
    h !! passed = None ∧
    _at (Passed.pass this object invert h).1 = _at this ∧
    _silent (Passed.pass this object invert h).1 = _silent this ∧
    _eventContext (Passed.pass this object invert h).1 = _eventContext this ∧
    (∀ l, l ≠ passed → (Passed.pass this object invert h).2 !! l = h !! l) ∧
    (Passed.pass this object invert h).2 !! parent = Some inherited ∧
    (Passed.pass this object invert h).2 !! passed = Some context ∧
    ∀ key,
      context !! key =
        if invert
        then match inherited !! key with
             | Some v => Some v
             | None => props !! key
             end
        else match props !! key with
             | Some v => Some v
             | None => inherited !! key
             end.
Proof.
  intros Hp Hparent -> Hsupplied.
  set (passed := fresh (dom h)).
  assert (h !! passed = None) as Hfresh
    by apply not_elem_of_dom, is_fresh.
  assert (parent ≠ passed) as Hn1 by congruence.
  assert (supplied ≠ passed) as Hn2 by congruence.
  exists passed,
    (if invert then inherited ∪ (props ∪ ∅) else props ∪ (inherited ∪ ∅)).
  assert ((Passed.pass this (VRef supplied) invert h).2 =
          alter (λ t, if invert then inherited ∪ t else props ∪ t) passed
            (alter (λ t, if invert then props ∪ t else inherited ∪ t) passed
               (<[passed := ∅]> h))) as Hheap.
  { unfold Passed.pass; simpl. fold passed. rewrite Hp.
    destruct invert; simpl.
    - rewrite lookup_insert_ne, Hsupplied by done.
      by rewrite lookup_alter_ne, lookup_insert_ne, Hparent by done.
    - rewrite lookup_insert_ne, Hparent by done.
      by rewrite lookup_alter_ne, lookup_insert_ne, Hsupplied by done. }
  rewrite Hheap. repeat split; try done.
  - intros l Hl. by rewrite !lookup_alter_ne, lookup_insert_ne.
  - by rewrite !lookup_alter_ne, lookup_insert_ne.
  - rewrite !lookup_alter_eq, lookup_insert_eq. by destruct invert.
  - intros key. destruct invert; rewrite !lookup_union_first, lookup_empty;
      by repeat case_match.
Qed.

(** C7, on the heap of [ExamplePassed]: [pass({from: "x"})] on the root
    scope, then [pass({to: "y", from: "z"}, true)] on the result. *)
Lemma pass_merges_contexts_witness :
  (∃ passed context,
     _pass ExamplePassed.first.1 = VRef passed ∧
     ExamplePassed.first.2 !! passed = Some context ∧
     ExamplePassed.first.2 !! 1%positive = Some ∅ ∧
     context !! "from" = Some (VStr "x")) ∧
  (∃ passed context,
     _pass ExamplePassed.second.1 = VRef passed ∧
     ExamplePassed.second.2 !! passed = Some context ∧
     context !! "from" = Some (VStr "x") ∧
     context !! "to" = Some (VStr "y")).
Proof.
  split.
  - destruct (pass_merges_contexts Example.model (VRef 2%positive) false
                ExamplePassed.heap 1%positive ∅ 2%positive
                {[ "from" := VStr "x" ]})
      as (passed & context & H1 & _ & _ & _ & _ & _ & H2 & H3 & H4);
      [reflexivity..|].
    exists passed, context.
    split; [exact H1|]. split; [exact H3|]. split; [exact H2|].
    rewrite H4. reflexivity.
  - destruct (pass_merges_contexts ExamplePassed.first.1 (VRef 3%positive) true
                ExamplePassed.first.2 4%positive
                {[ "from" := VStr "x" ]} 3%positive
                {[ "to" := VStr "y"; "from" := VStr "z" ]})
      as (passed & context & H1 & _ & _ & _ & _ & _ & _ & H3 & H4);
      [vm_compute; reflexivity..|].
    exists passed, context.
    split; [exact H1|]. split; [exact H3|].
    split; rewrite H4; reflexivity.
Defined.

(** * The claim about registration *)

Lemma scanPattern_misplaced len rest i captureIndicies remainingIndex :
  i + length rest = len →
  (∃ j, rest !! j = Some "**" ∧ i + j ≠ len - 1) →
  scanPattern len i rest captureIndicies remainingIndex = Throws patternError.
Proof.
  revert i captureIndicies remainingIndex.
  induction rest as [|segment rest IH];
    intros i captureIndicies remainingIndex Hlen [j [Hj Hne]].
  - by rewrite lookup_nil in Hj.
  - simpl in Hlen. simpl.
    destruct j as [|j]; simpl in Hj.
    + injection Hj as ->. rewrite bool_decide_eq_false_2 by done.
      rewrite bool_decide_eq_true_2 by done.
      rewrite bool_decide_eq_false_2 by lia. done.
    + assert (∃ j', rest !! j' = Some "**" ∧ S i + j' ≠ len - 1) as Hrest
        by (exists j; split; [done | lia]).
      assert (i ≠ len - 1) as Hi
        by (apply lookup_lt_Some in Hj; lia).
      repeat case_bool_decide; try done; apply IH; (lia || done).
Qed.

Lemma createMutationListener_misplaced pattern eventContext cb :
  tail_wildcard_misplaced (split_dot pattern) →
  createMutationListener pattern eventContext cb = Throws patternError.
Proof.
  intros [j [Hj Hne]]. unfold createMutationListener.
  assert (length (split_dot pattern) ≠ 1) as Hlen.
  { intros Hl. apply lookup_lt_Some in Hj as Hlt. lia. }
  rewrite (bool_decide_eq_false_2 _ Hlen); simpl.
  rewrite scanPattern_misplaced; [done | done |].
  exists j. by split.
Qed.

Lemma getWildcardListeners_raw listener tree segments :
  listener ∈ getWildcardListeners (addListener ["**"] listener tree) segments.
Proof.
  destruct segments; simpl; rewrite elem_of_app; left;
    rewrite elem_of_app; right; by apply list_elem_of_singleton.
Qed.

(** C9, as amended.  Registering on a type that has a tree: when the
    pattern the arguments resolve to is not empty and, once normalised and
    split at the dots, has a [**] segment that is not its last segment,
    the registration throws the pattern error and leaves the root, hence
    the tree, as it was.  When the arguments resolve to no pattern or to
    the empty pattern, the registration does not fail: it returns a
    listener with the pattern [**], added to the tree, where it is found
    for every path. *)
Theorem registration_checks_tail_wildcard
    (path : Scope → Arg → option string) this type arg1 arg2 arg3 r tree
    pattern options cb :
  _mutationListeners r !! type = Some tree →
  listenerArguments path this arg1 arg2 arg3
    = Returns (pattern, options, cb) →
  (∀ p, pattern = Some p → p ≠ "" →
        tail_wildcard_misplaced (split_dot (normalizePattern p)) →
        _addMutationListener path this type arg1 arg2 arg3 r
          = RegistrationThrew patternError r) ∧
  (pattern = None ∨ pattern = Some "" →
   ∃ listener r',
     _addMutationListener path this type arg1 arg2 arg3 r
       = Registered (Some listener) r' ∧
     patternSegments listener = ["**"] ∧
     _mutationListeners r' !! type
       = Some (addListener ["**"] listener tree) ∧
     ∀ segments, listener ∈ getWildcardListeners (treeOf r' type) segments).
Proof.
  intros Ht Hargs. split.
  - intros p -> Hp Hmis. unfold _addMutationListener, getMutationListener.
    rewrite Ht, Hargs.
    destruct p as [|c p]; [done|].
    unfold createMutationListenerLegacy.
    destruct (useEventObjects_of options);
      by rewrite createMutationListener_misplaced.
  - intros Hempty.
    set (listener := MkMutationListener ["**"] (_eventContext this)
                       (λ segments event, cb (RawEmission segments event))).
    assert (getMutationListener path this type arg1 arg2 arg3
            = Returns listener) as Hl.
    { unfold getMutationListener. rewrite Hargs.
      by destruct Hempty as [->| ->]. }
    unfold _addMutationListener. rewrite Ht, Hl.
    destruct (_eventContext this) as [id|] eqn:Hid;
      eexists listener, _; (split; [reflexivity|]);
      (split; [reflexivity|]); unfold treeOf; simpl;
      rewrite lookup_insert_eq; (split; [reflexivity|]);
      intros segments; apply getWildcardListeners_raw.
Qed.

(** C9: the pattern [a.**.b] on the root scope. *)
Lemma registration_checks_tail_wildcard_witness :
  _addMutationListener ExampleRegistration.rootPath Example.model "change"
    (AString "a.**.b") (AFunction ExampleRegistration.callback) AUndefined
    Example.start
  = RegistrationThrew patternError Example.start.
Proof.
  eapply (registration_checks_tail_wildcard ExampleRegistration.rootPath
            Example.model "change" (AString "a.**.b")
            (AFunction ExampleRegistration.callback) AUndefined
            Example.start emptyNode (Some "a.**.b")).
  - vm_compute; reflexivity.
  - reflexivity.
  - reflexivity.
  - discriminate.
  - exists 1. split; [vm_compute; reflexivity | vm_compute; lia].
Defined.

(** C9, as stated, fails: [on('change', '', cb)] on the root scope does
    not throw; it returns a listener, and that listener is in the tree. *)
Lemma empty_pattern_is_registered :
  listenerArguments ExampleRegistration.rootPath Example.model
    (AString "") (AFunction ExampleRegistration.callback) AUndefined
  = Returns (Some "", AUndefined, ExampleRegistration.callback) ∧
  ∃ listener r',
    _addMutationListener ExampleRegistration.rootPath Example.model "change"
      (AString "") (AFunction ExampleRegistration.callback) AUndefined
      Example.start
    = Registered (Some listener) r' ∧
    getWildcardListeners (treeOf Example.start "change") ["n"] = [] ∧
    getWildcardListeners (treeOf r' "change") ["n"] = [listener].
Proof.
  split; [reflexivity|]. eexists _, _.
  split; [vm_compute; reflexivity|]. split; vm_compute; reflexivity.
Qed.

(** * The claims about document retention *)

Lemma query_holds_referenced id query n :
  (0 < fetchCount query ∨ 0 < subscribeCount query)%Z →
  idMap query !! id = Some n → (0 < n)%Z →
  query_holds id query = true.
Proof.
  intros Hc Hid Hn. unfold query_holds, number_truthy. rewrite Hid.
  destruct (subscribeCount query =? 0)%Z eqn:Hs,
           (fetchCount query =? 0)%Z eqn:Hf; simpl; try lia.
Qed.

Lemma referenced_hasDocReferences r collectionName id :
  referenced r collectionName id →
  _hasDocReferences collectionName id r = true.
Proof.
  unfold _hasDocReferences.
  intros [Hf|[Hs|(queries & hash & query & n & Hq & Hh & Hc & Hid & Hn)]].
  - rewrite (bool_decide_eq_false_2 (_ = 0)) by lia.
    by rewrite orb_true_r.
  - rewrite (bool_decide_eq_false_2
               (CollectionCounter_get (_subscribedDocs r) _ _ = 0)) by lia.
    by rewrite orb_true_r.
  - rewrite Hq.
    assert (existsb (λ hq, query_holds id hq.2) (map_to_list queries) = true)
      as ->; [|done].
    apply existsb_exists. exists (hash, query). split.
    + by apply list_elem_of_In, elem_of_map_to_list.
    + simpl. by eapply query_holds_referenced.
Qed.

(** C4.  While the document is referenced, [_maybeUnloadDoc] returns with
    the root exactly as it was, so the document stays.  When it is not
    held and its synchronisation handle reports pending operations,
    [_maybeUnloadDoc] only registers a [whenNothingPending] callback that
    will call [_maybeUnloadDoc] again; the document stays. *)
Theorem referenced_doc_is_kept fuel model collectionName id r :
  (referenced r collectionName id →
   _maybeUnloadDoc fuel model collectionName id r = Done r) ∧
  (∀ doc sd,
     getDoc r collectionName id = Some doc →
     _hasDocReferences collectionName id r = false →
     shareDoc doc = Some sd → hasPending sd = true →
     _maybeUnloadDoc fuel model collectionName id r
       = Done (share_call
                 (sd_whenNothingPending collectionName id
                    (thunk_retryMaybeUnloadDoc model collectionName id)) r) ∧
     getDoc (share_call
               (sd_whenNothingPending collectionName id
                  (thunk_retryMaybeUnloadDoc model collectionName id)) r)
       collectionName id = Some doc ∧
     ∀ EventEmitter_emit err r0,
       runThunk EventEmitter_emit fuel
         (thunk_retryMaybeUnloadDoc model collectionName id) err r0
       = _maybeUnloadDoc fuel model collectionName id r0).
Proof.
  split.
  - intros Href. unfold _maybeUnloadDoc.
    destruct (getDoc r collectionName id); [|done].
    by rewrite referenced_hasDocReferences.
  - intros doc sd Hdoc Hnone Hsd Hpending. unfold _maybeUnloadDoc.
    rewrite Hdoc, Hnone, Hsd, Hpending. done.
Qed.

(** C4, on [ExampleDocs]: document 1 held by a subscribed query only, and
    document 2 with pending operations. *)
Lemma referenced_doc_is_kept_witness :
  _maybeUnloadDoc 2 Example.model "posts" "1" ExampleDocs.queried
    = Done ExampleDocs.queried ∧
  _maybeUnloadDoc 2 Example.model "posts" "2" ExampleDocs.loaded
    = Done (share_call
              (sd_whenNothingPending "posts" "2"
                 (thunk_retryMaybeUnloadDoc Example.model "posts" "2"))
              ExampleDocs.loaded).
Proof.
  split.
  - apply (referenced_doc_is_kept 2 Example.model "posts" "1"
             ExampleDocs.queried).
    right; right.
    exists {[ "hash" := MkQuery 0 1 {[ "1" := 1%Z ]} ]}, "hash",
      (MkQuery 0 1 {[ "1" := 1%Z ]}), 1%Z.
    repeat split; try (vm_compute; reflexivity). right. reflexivity.
  - destruct (proj2 (referenced_doc_is_kept 2 Example.model "posts" "2"
                       ExampleDocs.loaded)
                ExampleDocs.draft (MkShareDoc true true)) as [H _];
      [vm_compute; reflexivity..|exact H].
Defined.

Lemma dispatched_elem e h : e ∈ dispatched h → e ∈ h.
Proof.
  unfold dispatched. rewrite !list_elem_of_In.
  intros H. by apply List.filter_In in H as [? _].
Qed.

Lemma block_invoked type segments event ls l :
  l ∈ ls → Invoked type segments event l ∈ block type segments event ls.
Proof.
  induction ls as [|l0 ls IH]; intros Hl.
  - by apply elem_of_nil in Hl.
  - simpl. apply elem_of_cons in Hl as [->|Hl].
    + apply elem_of_cons; by left.
    + do 2 (apply elem_of_cons; right). by apply IH.
Qed.

(** C8.  When the document exists, nothing references it and its handle
    has nothing pending, [_maybeUnloadDoc] is the emission, through the
    same scope and at the path [collection, id], of an Unload event whose
    [previous] is the value the document had, from a root in which the
    document is gone from its collection (and no other document is) and,
    if it had a synchronisation handle, [destroy] has been called on it.
    On a scope that is not silent and a root that is idle, every [unload]
    listener matching the path has been called with that event when the
    call returns. *)
Theorem eviction_removes_destroys_emits fuel model collectionName id r doc :
  getDoc r collectionName id = Some doc →
  _hasDocReferences collectionName id r = false →
  match shareDoc doc with Some sd => hasPending sd | None => false end
    = false →
  ∃ r2,
    _maybeUnloadDoc fuel model collectionName id r
      = _emitMutation fuel model [collectionName; id]
          (UnloadEvent (doc_get doc) (_pass model)) r2 ∧
    Event_previous (UnloadEvent (doc_get doc) (_pass model)) = doc_get doc ∧
    getDoc r2 collectionName id = None ∧
    (∀ c i, (c, i) ≠ (collectionName, id) → getDoc r2 c i = getDoc r c i) ∧
    shareCalls r2 = shareCalls r ++
                    match shareDoc doc with
                    | Some _ => [sd_destroy collectionName id]
                    | None => []
                    end ∧
    history r2 = history r ∧
    (_silent model = false → idle r → ∀ fuel' r',
       fuel = S fuel' →
       _maybeUnloadDoc fuel model collectionName id r = Done r' →
       ∀ l, l ∈ getWildcardListeners (treeOf r "unload")
                  [collectionName; id] →
            Invoked "unload" [collectionName; id]
              (UnloadEvent (doc_get doc) (_pass model)) l ∈ history r').
Proof.
  intros Hdoc Hnone Hpending.
  set (r1 := Collection_remove collectionName id r).
  set (r2 := match shareDoc doc with
             | Some _ => share_call (sd_destroy collectionName id) r1
             | None => r1
             end).
  assert (_maybeUnloadDoc fuel model collectionName id r
          = _emitMutation fuel model [collectionName; id]
              (UnloadEvent (doc_get doc) (_pass model)) r2) as Hrun.
  { unfold _maybeUnloadDoc. by rewrite Hdoc, Hnone, Hpending. }
  unfold getDoc in Hdoc.
  destruct (collections r !! collectionName) as [docs|] eqn:Hdocs;
    [|done]. simpl in Hdoc.
  assert (collections r2
          = <[collectionName := delete id docs]> (collections r)) as Hc.
  { subst r2 r1. unfold Collection_remove. rewrite Hdocs.
    by destruct (shareDoc doc). }
  assert (_mutationListeners r2 = _mutationListeners r ∧
          history r2 = history r ∧ idle r2 = idle r ∧
          shareCalls r2 = shareCalls r ++
                          match shareDoc doc with
                          | Some _ => [sd_destroy collectionName id]
                          | None => []
                          end) as (Hfr & Hh & Hidle & Hsc).
  { subst r2 r1. unfold Collection_remove. rewrite Hdocs.
    by destruct (shareDoc doc); simpl; rewrite ?app_nil_r. }
  exists r2. repeat split; try done.
  - unfold getDoc. rewrite Hc, lookup_insert_eq. simpl.
    apply lookup_delete_eq.
  - intros c i Hne. unfold getDoc. rewrite Hc.
    destruct (decide (c = collectionName)) as [->|Hcne].
    + rewrite lookup_insert_eq, Hdocs. simpl.
      apply lookup_delete_ne. congruence.
    + by rewrite lookup_insert_ne.
  - intros Hs Hi fuel' r' -> Hdone l Hl. rewrite Hrun in Hdone.
    assert (idle r2) as Hi2 by (by rewrite Hidle).
    destruct (idle_emission_delivers _ _ _ _ _ _ Hs Hi2 Hdone)
      as (r3 & Δ & _ & Hh' & HD & _).
    rewrite Hh'. apply elem_of_app; right. apply dispatched_elem.
    rewrite HD. apply elem_of_app; left. unfold delivery; simpl.
    apply elem_of_app; left. apply block_invoked.
    unfold treeOf. by rewrite Hfr.
Qed.

(** C8, on [ExampleDocs.loaded]: document 1 is evicted. *)
Lemma eviction_removes_destroys_emits_witness :
  ∃ r2,
    _maybeUnloadDoc 2 Example.model "posts" "1" ExampleDocs.loaded
      = _emitMutation 2 Example.model ["posts"; "1"]
          (UnloadEvent (VStr "hello") (VRef 1%positive)) r2 ∧
    getDoc r2 "posts" "1" = None ∧
    getDoc r2 "posts" "2" = Some ExampleDocs.draft ∧
    shareCalls r2 = [sd_destroy "posts" "1"] ∧
    ∃ r',
      _maybeUnloadDoc 2 Example.model "posts" "1" ExampleDocs.loaded
        = Done r' ∧
      dispatched (history r') =
        block "unload" ["posts"; "1"]
          (UnloadEvent (VStr "hello") (VRef 1%positive))
          [Example.quiet ["posts"; "*"]].
Proof.
  destruct (eviction_removes_destroys_emits 2 Example.model "posts" "1"
              ExampleDocs.loaded ExampleDocs.post)
    as (r2 & Hrun & _ & Hgone & Hothers & Hsc & _);
    [vm_compute; reflexivity..|].
  exists r2. split; [exact Hrun|]. split; [exact Hgone|].
  split; [by rewrite Hothers|]. split; [exact Hsc|].
  eexists. split; vm_compute; reflexivity.
Defined.

(** C10.  When the fetched count of the document is 0, [unfetchDoc] is
    the call of the wrapped callback with no argument, in a root where
    only the scope's context has been told; nothing else happens.  So
    with no callback given it returns at once, and when the given
    callback returns, the counters, the timers and the calls on
    synchronisation handles are what they were.  The same holds for
    [unsubscribeDoc] when the subscribed count is 0. *)
Theorem unload_of_unheld_doc_only_calls_back
    (EventEmitter_emit : string → Thrown → Root → Outcome) fuel model
    collectionName id cb r :
  (CollectionCounter_get (_fetchedDocs r) collectionName id = 0 →
   unfetchDoc EventEmitter_emit fuel model collectionName id cb r
     = callCallback EventEmitter_emit fuel (wrapCallback model cb)
         (MkCbArgs None None)
         (context_call (ctx_unfetchDoc collectionName id) r) ∧
   (cb = None →
    unfetchDoc EventEmitter_emit fuel model collectionName id cb r
      = Done (context_call (ctx_unfetchDoc collectionName id) r)) ∧
   (∀ user r',
      cb = Some user →
      runCmd (_emitMutation fuel) (user (MkCbArgs None None))
        (context_call (ctx_unfetchDoc collectionName id) r) = Done r' →
      unfetchDoc EventEmitter_emit fuel model collectionName id cb r
        = Done r' ∧
      _fetchedDocs r' = _fetchedDocs r ∧
      _subscribedDocs r' = _subscribedDocs r ∧
      timers r' = timers r ∧ shareCalls r' = shareCalls r)) ∧
  (CollectionCounter_get (_subscribedDocs r) collectionName id = 0 →
   unsubscribeDoc EventEmitter_emit fuel model collectionName id cb r
     = callCallback EventEmitter_emit fuel (wrapCallback model cb)
         (MkCbArgs None None)
         (context_call (ctx_unsubscribeDoc collectionName id) r) ∧
   (cb = None →
    unsubscribeDoc EventEmitter_emit fuel model collectionName id cb r
      = Done (context_call (ctx_unsubscribeDoc collectionName id) r)) ∧
   (∀ user r',
      cb = Some user →
      runCmd (_emitMutation fuel) (user (MkCbArgs None None))
        (context_call (ctx_unsubscribeDoc collectionName id) r) = Done r' →
      unsubscribeDoc EventEmitter_emit fuel model collectionName id cb r
        = Done r' ∧
      _fetchedDocs r' = _fetchedDocs r ∧
      _subscribedDocs r' = _subscribedDocs r ∧
      timers r' = timers r ∧ shareCalls r' = shareCalls r)).
Proof.
  split; intros Hzero.
  - assert (unfetchDoc EventEmitter_emit fuel model collectionName id cb r
            = callCallback EventEmitter_emit fuel (wrapCallback model cb)
                (MkCbArgs None None)
                (context_call (ctx_unfetchDoc collectionName id) r)) as Hrun.
    { unfold unfetchDoc. simpl. by rewrite bool_decide_eq_true_2. }
    split; [exact Hrun|]. rewrite Hrun. split; [by intros ->|].
    intros user r' -> Huser. simpl. rewrite Huser.
    pose proof (runCmd_frame _ (_emitMutation_frame fuel)
                  (user (MkCbArgs None None))
                  (context_call (ctx_unfetchDoc collectionName id) r)) as F.
    rewrite Huser in F. destruct F. by repeat split.
  - assert (unsubscribeDoc EventEmitter_emit fuel model collectionName id cb r
            = callCallback EventEmitter_emit fuel (wrapCallback model cb)
                (MkCbArgs None None)
                (context_call (ctx_unsubscribeDoc collectionName id) r))
      as Hrun.
    { unfold unsubscribeDoc. simpl. by rewrite bool_decide_eq_true_2. }
    split; [exact Hrun|]. rewrite Hrun. split; [by intros ->|].
    intros user r' -> Huser. simpl. rewrite Huser.
    pose proof (runCmd_frame _ (_emitMutation_frame fuel)
                  (user (MkCbArgs None None))
                  (context_call (ctx_unsubscribeDoc collectionName id) r))
      as F.
    rewrite Huser in F. destruct F. by repeat split.
Qed.

(** C10, on [ExampleDocs.loaded], where nothing is fetched or
    subscribed. *)
Lemma unload_of_unheld_doc_only_calls_back_witness :
  unfetchDoc ExampleCallbacks.unhandled 1 Example.model "posts" "1" None
    ExampleDocs.loaded
  = Done (context_call (ctx_unfetchDoc "posts" "1") ExampleDocs.loaded) ∧
  unsubscribeDoc ExampleCallbacks.unhandled 1 Example.model "posts" "1" None
    ExampleDocs.loaded
  = Done (context_call (ctx_unsubscribeDoc "posts" "1") ExampleDocs.loaded).
Proof.
  destruct (unload_of_unheld_doc_only_calls_back ExampleCallbacks.unhandled
              1 Example.model "posts" "1" None ExampleDocs.loaded)
    as [Hfetch Hsubscribe].
  split.
  - apply Hfetch; reflexivity.
  - apply Hsubscribe; reflexivity.
Defined.

(** What line 108 of subscriptions.ts computes for a configured delay. *)
Lemma initSubscriptions_configured options isServer r d :
  opt_unloadDelay options = Some d → d ≠ 0%Z →
  unloadDelay (initSubscriptions options isServer r) = 0%Z.
Proof.
  intros Hd Hnz. unfold initSubscriptions; simpl. rewrite Hd.
  unfold number_truthy. by destruct (Z.eqb_spec d 0).
Qed.

(** C3 fails on the code.  A client-side model configured with
    [unloadDelay: 500] gets the delay 0: [unfetchDoc] arms no timer,
    decrements the counter at once and evicts the document.  Without the
    option the same call arms a timer of 1000 and leaves the counter
    alone. *)
Theorem configured_unloadDelay_is_dropped :
  unloadDelay ExampleDocs.configured = 0%Z ∧
  unloadDelay ExampleDocs.unconfigured = 1000%Z ∧
  (∃ r',
     unfetchDoc ExampleCallbacks.unhandled 2 Example.model "posts" "1" None
       ExampleDocs.configured = Done r' ∧
     timers r' = [] ∧
     CollectionCounter_get (_fetchedDocs r') "posts" "1" = 0 ∧
     getDoc r' "posts" "1" = None) ∧
  (∃ r',
     unfetchDoc ExampleCallbacks.unhandled 2 Example.model "posts" "1" None
       ExampleDocs.unconfigured = Done r' ∧
     timers r' =
       [(1000%Z,
         thunk_finishUnfetchDoc Example.model "posts" "1" defaultCallback)] ∧
     CollectionCounter_get (_fetchedDocs r') "posts" "1" = 1).
Proof.
  split; [reflexivity|]. split; [reflexivity|].
  split; eexists; (split; [vm_compute; reflexivity|]);
    repeat split; vm_compute; reflexivity.
Qed.

(** * Further properties of the code *)

(** ** Patterns and captures *)

Lemma split_dot_nonempty s : split_dot s ≠ [].
Proof.
  destruct s as [|c s]; simpl; [done|].
  destruct (Ascii.eqb c "."); [done|]. by destruct (split_dot s).
Qed.

Lemma scanPattern_throws len rest i ci ri e :
  i + length rest = len →
  scanPattern len i rest ci ri = Throws e →
  e = patternError ∧ ∃ j, rest !! j = Some "**" ∧ i + j ≠ len - 1.
Proof.
  revert i ci ri. induction rest as [|segment rest IH]; intros i ci ri Hlen H;
    simpl in *; [done|].
  repeat case_bool_decide; simpl in H.
  - apply IH in H as [-> (j & Hj & Hne)]; [|lia].
    split; [done|]. exists (S j). split; [done|lia].
  - apply IH in H as [-> (j & Hj & Hne)]; [|lia].
    split; [done|]. exists (S j). split; [done|lia].
  - injection H as <-. split; [done|]. exists 0. subst. split; [done|lia].
  - apply IH in H as [-> (j & Hj & Hne)]; [|lia].
    split; [done|]. exists (S j). split; [done|lia].
Qed.

Lemma scanPattern_returns len rest i ci ri ci' ri' :
  i + length rest = len →
  scanPattern len i rest ci ri = Returns (ci', ri') →
  default [] ci' = default [] ci ++ starIndices rest i ∧
  (ci' = None → ci = None ∧ starIndices rest i = []) ∧
  ri' = (if bool_decide (last rest = Some "**") then Some (len - 1) else ri).
Proof.
  revert i ci ri. induction rest as [|segment rest IH]; intros i ci ri Hlen H.
  - simpl in *. injection H as <- <-. by rewrite app_nil_r.
  - assert (last (segment :: rest) =
            match rest with [] => Some segment | _ => last rest end) as Hlast
      by (by destruct rest).
    rewrite Hlast. simpl in Hlen. cbn [scanPattern starIndices] in *.
    destruct (bool_decide (segment = "*")) eqn:Hstar.
    + apply bool_decide_eq_true_1 in Hstar as ->.
      apply IH in H as (Hc & Hn & Hr); [|lia]. simpl in Hc.
      split; [|split].
      * rewrite Hc. destruct ci; simpl; by rewrite <- ?app_assoc.
      * intros ->. by destruct (Hn eq_refl).
      * rewrite Hr. by destruct rest.
    + destruct (bool_decide (segment = "**")) eqn:Htail.
      * apply bool_decide_eq_true_1 in Htail as ->.
        case_bool_decide as Hi; simpl in H; [|done].
        assert (rest = []) as -> by (destruct rest; simpl in *; [done|lia]).
        simpl in H. injection H as <- <-. simpl.
        rewrite app_nil_r. split; [done|]. split; [done|]. by rewrite Hi.
      * apply bool_decide_eq_false_1 in Htail.
        apply IH in H as (Hc & Hn & Hr); [|lia]. simpl.
        split; [done|]. split; [done|]. rewrite Hr.
        destruct rest; [|done]. simpl.
        rewrite (bool_decide_eq_false_2 (Some segment = Some "**"));
          [done|congruence].
Qed.

Lemma createMutationListener_throws_or_returns pattern context cb l :
  createMutationListener pattern context cb = Returns l →
  ¬ tail_wildcard_misplaced (split_dot pattern) ∧
  patternSegments l = split_dot pattern ∧ eventContext l = context.
Proof.
  intros H. split.
  - intros Hmis.
    by rewrite (createMutationListener_misplaced _ _ _ Hmis) in H.
  - unfold createMutationListener in H.
    destruct (_ && _); [by injection H as <-|].
    destruct (scanPattern _ _ _ _ _) as [[ci ri]|]; [|done].
    by injection H as <-.
Qed.

(** X1.  [createMutationListener] throws exactly when a [**] segment of
    the pattern is not its last segment, and then it throws the pattern
    error; otherwise it returns a listener that carries the pattern split
    at the dots and the event context it was given. *)
Theorem createMutationListener_throws_iff_misplaced pattern context cb :
  match createMutationListener pattern context cb with
  | Throws e =>
    e = patternError ∧ tail_wildcard_misplaced (split_dot pattern)
  | Returns l =>
    ¬ tail_wildcard_misplaced (split_dot pattern) ∧
    patternSegments l = split_dot pattern ∧
    eventContext l = context
  end.
Proof.
  destruct (createMutationListener pattern context cb) as [l|e] eqn:H.
  - by apply createMutationListener_throws_or_returns in H.
  - unfold createMutationListener in H.
    destruct (_ && _); [done|].
    destruct (scanPattern _ _ _ _ _) as [[ci ri]|e'] eqn:Hscan; [done|].
    injection H as <-.
    apply scanPattern_throws in Hscan as [-> (j & Hj & Hne)]; [|done].
    split; [done|]. by exists j.
Qed.

Lemma createMutationListener_fn pattern context cb l :
  createMutationListener pattern context cb = Returns l →
  ∀ segments event,
    fn l segments event
    = cb event (wildcardCaptures (split_dot pattern) segments).
Proof.
  unfold createMutationListener. intros H segments event.
  destruct (bool_decide (length (split_dot pattern) = 1) &&
            bool_decide (split_dot pattern !! 0 = Some "**")) eqn:Hone.
  - injection H as <-. simpl.
    apply andb_true_iff in Hone as [Hlen Hfirst].
    apply bool_decide_eq_true_1 in Hlen, Hfirst.
    destruct (split_dot pattern) as [|p [|q ps]]; simplify_eq/=.
    unfold wildcardCaptures. simpl. by rewrite drop_0.
  - destruct (scanPattern _ _ _ _ _) as [[ci ri]|] eqn:Hscan; [|done].
    injection H as <-. simpl.
    apply scanPattern_returns in Hscan as (Hc & Hn & Hr); [|done].
    simpl in Hc. unfold wildcardCaptures, createCaptures.
    destruct ci as [indicies|]; simpl in *.
    + rewrite <- Hc, Hr. case_bool_decide; by rewrite ?app_nil_r.
    + destruct (Hn eq_refl) as [_ ->]. rewrite Hr.
      case_bool_decide; by rewrite ?app_nil_r.
Qed.

Lemma getMutationListener_pattern path model type arg1 arg2 arg3 p options
    cb :
  listenerArguments path model arg1 arg2 arg3
    = Returns (Some p, options, cb) →
  p ≠ "" →
  getMutationListener path model type arg1 arg2 arg3
  = if useEventObjects_of options then
      createMutationListener (normalizePattern p) (_eventContext model)
        (λ event captures, cb (EventObjects event captures))
    else
      createMutationListenerLegacy type (normalizePattern p)
        (_eventContext model) cb.
Proof.
  intros Hargs Hp. unfold getMutationListener. rewrite Hargs.
  by destruct p.
Qed.

Lemma last_getArgs event : last (Event_getArgs event) = Some (Event_passed event).
Proof. by destruct event. Qed.

(** X2.  A listener registered with [useEventObjects] on a pattern that is
    not empty calls the user's function with the event and with the
    captures of the pattern: the path segment under every [*], in order,
    and, for a final [**], the rest of the path joined by dots; a pattern
    without wildcards gives no capture. *)
Theorem event_object_listener_captures
    (path : Scope → Arg → option string) model type arg1 arg2 arg3 p
    options cb l :
  listenerArguments path model arg1 arg2 arg3
    = Returns (Some p, options, cb) →
  p ≠ "" → useEventObjects_of options = true →
  getMutationListener path model type arg1 arg2 arg3 = Returns l →
  patternSegments l = split_dot (normalizePattern p) ∧
  ∀ segments event,
    fn l segments event
    = cb (EventObjects event
            (wildcardCaptures (patternSegments l) segments)).
Proof.
  intros Hargs Hp Hopt H.
  rewrite (getMutationListener_pattern _ _ _ _ _ _ _ _ _ Hargs Hp), Hopt in H.
  pose proof (createMutationListener_throws_or_returns _ _ _ _ H) as [_ [Hps _]].
  rewrite Hps. split; [done|]. intros segments event.
  by rewrite (createMutationListener_fn _ _ _ _ H).
Qed.

(** X2, on the root scope: [on('change', 'rooms.*.**',
    {useEventObjects: true}, cb)] and the path [rooms.lobby.users.3]. *)
Lemma event_object_listener_captures_witness :
  ∃ l,
    getMutationListener ExampleRegistration.rootPath Example.model "change"
      (AString "rooms.*.**") (AOptions true)
      (AFunction ExampleRegistration.callback) = Returns l ∧
    patternSegments l = ["rooms"; "*"; "**"] ∧
    ∀ event,
      fn l ["rooms"; "lobby"; "users"; "3"] event
      = ExampleRegistration.callback
          (EventObjects event [VStr "lobby"; VStr "users.3"]).
Proof.
  eexists. split; [vm_compute; reflexivity|].
  edestruct (event_object_listener_captures ExampleRegistration.rootPath
               Example.model "change" (AString "rooms.*.**") (AOptions true)
               (AFunction ExampleRegistration.callback) "rooms.*.**"
               (AOptions true) ExampleRegistration.callback)
    as [Hps Hfn]; [reflexivity | discriminate | reflexivity
                  | vm_compute; reflexivity |].
  split; [exact Hps|]. intros event. exact (Hfn _ event).
Defined.

(** X3.  A listener registered in the legacy style on a pattern that is
    not empty calls the user's function with positional arguments: the
    captures of the pattern, then, for a listener of type [all] only, the
    type of the event, then the arguments of the event; the last argument
    is always the event's [passed] object. *)
Theorem legacy_listener_arguments
    (path : Scope → Arg → option string) model type arg1 arg2 arg3 p
    options cb l :
  listenerArguments path model arg1 arg2 arg3
    = Returns (Some p, options, cb) →
  p ≠ "" → useEventObjects_of options = false →
  getMutationListener path model type arg1 arg2 arg3 = Returns l →
  ∀ segments event,
    ∃ args,
      fn l segments event = cb (LegacyArgs args) ∧
      args = wildcardCaptures (patternSegments l) segments ++
             (if bool_decide (type = "all")
              then [VStr (Event_type event)] else []) ++
             Event_getArgs event ∧
      last args = Some (Event_passed event).
Proof.
  intros Hargs Hp Hopt H segments event.
  rewrite (getMutationListener_pattern _ _ _ _ _ _ _ _ _ Hargs Hp), Hopt in H.
  unfold createMutationListenerLegacy in H.
  pose proof (createMutationListener_throws_or_returns _ _ _ _ H)
    as [_ [Hps _]].
  rewrite (createMutationListener_fn _ _ _ _ H), Hps.
  eexists. split; [|split; [reflexivity|]].
  - by case_bool_decide.
  - rewrite !last_app, last_getArgs. by destruct event.
Qed.

(** X3, on the root scope: [on('all', 'rooms.*', cb)], a change below
    [rooms]. *)
Lemma legacy_listener_arguments_witness :
  ∃ l,
    getMutationListener ExampleRegistration.rootPath Example.model "all"
      (AString "rooms.*") (AFunction ExampleRegistration.callback)
      AUndefined = Returns l ∧
    fn l ["rooms"; "lobby"] (Example.change 1)
    = ExampleRegistration.callback
        (LegacyArgs [VStr "lobby"; VStr "change"; VNum 1; VNum 0;
                     VRef 1%positive]).
Proof.
  eexists. split; [vm_compute; reflexivity|].
  edestruct (legacy_listener_arguments ExampleRegistration.rootPath
               Example.model "all" (AString "rooms.*")
               (AFunction ExampleRegistration.callback) AUndefined "rooms.*"
               AUndefined ExampleRegistration.callback)
    as (args & Hfn & Hargs & _); [reflexivity | discriminate | reflexivity
                                 | vm_compute; reflexivity |].
  rewrite Hfn, Hargs. reflexivity.
Defined.

(** ** Normalising a pattern *)

Lemma string_length_app s t :
  String.length (s +:+ t) = String.length s + String.length t.
Proof. induction s as [|c s IH]; simpl; [done|]. by rewrite IH. Qed.

Lemma string_get_app_r pre t k :
  String.get (String.length pre + k) (pre +:+ t) = String.get k t.
Proof. induction pre as [|c pre IH]; simpl; done. Qed.

Lemma string_substring_app_l pre t :
  String.substring 0 (String.length pre) (pre +:+ t) = pre.
Proof.
  induction pre as [|c pre IH]; simpl; [by destruct t|]. by rewrite IH.
Qed.

Lemma string_app_assoc s t u : (s +:+ t) +:+ u = s +:+ (t +:+ u).
Proof.
  induction s as [|c s IH]; [done|].
  change (String c ((s +:+ t) +:+ u) = String c (s +:+ (t +:+ u))).
  by rewrite IH.
Qed.

Lemma string_suffix3 s :
  3 ≤ String.length s →
  ∃ pre a b c, s = pre +:+ String a (String b (String c EmptyString)).
Proof.
  induction s as [|x s IH]; simpl; [lia|]. intros Hlen.
  destruct (decide (3 ≤ String.length s)) as [Hs|Hs].
  - destruct (IH Hs) as (pre & a & b & c & ->).
    by exists (String x pre), a, b, c.
  - destruct s as [|b [|c [|d s]]]; simpl in *; try lia.
    by exists EmptyString, x, b, c.
Qed.

Lemma charAt_app_r pre t k :
  charAt (pre +:+ t) (Z.of_nat (String.length pre + k)) = charAt t (Z.of_nat k).
Proof.
  unfold charAt.
  rewrite (proj2 (Z.ltb_ge _ 0)), (proj2 (Z.ltb_ge (Z.of_nat k) 0)) by lia.
  by rewrite !Nat2Z.id, string_get_app_r.
Qed.

Lemma normalizePattern_short p : String.length p < 3 → normalizePattern p = p.
Proof.
  intros Hlen. unfold normalizePattern.
  assert (charAt p (Z.of_nat (String.length p) - 1 - 2) = "") as ->.
  { unfold charAt. by rewrite (proj2 (Z.ltb_lt _ 0)) by lia. }
  by rewrite !andb_false_r.
Qed.

Lemma normalizePattern_suffix3 pre a b c :
  normalizePattern (pre +:+ String a (String b (String c EmptyString)))
  = if bool_decide (c = "*"%char) && bool_decide (b = "*"%char) &&
       negb (bool_decide (a = "."%char))
    then pre +:+ String a ".**"
    else pre +:+ String a (String b (String c EmptyString)).
Proof.
  unfold normalizePattern. rewrite string_length_app. simpl.
  replace (Z.of_nat (String.length pre + 3) - 1)%Z
    with (Z.of_nat (String.length pre + 2)) by lia.
  replace (Z.of_nat (String.length pre + 2) - 1)%Z
    with (Z.of_nat (String.length pre + 1)) by lia.
  replace (Z.of_nat (String.length pre + 2) - 2)%Z
    with (Z.of_nat (String.length pre + 0)) by lia.
  rewrite !charAt_app_r. simpl.
  rewrite Nat2Z.id.
  assert (∀ x y : ascii,
            bool_decide (String x EmptyString = String y EmptyString)
            = bool_decide (x = y)) as Hchar.
  { intros x y. apply bool_decide_ext. split; congruence. }
  change (charAt (String a (String b (String c ""))) (Z.of_nat 2))
    with (String c "").
  change (charAt (String a (String b (String c ""))) (Z.of_nat 1))
    with (String b "").
  change (charAt (String a (String b (String c ""))) (Z.of_nat 0))
    with (String a "").
  rewrite !Hchar, andb_true_r.
  destruct (bool_decide (c = "*"%char) && bool_decide (b = "*"%char) &&
            negb (bool_decide (a = "."%char))) eqn:Hcond; [|done].
  replace (pre +:+ String a (String b (String c EmptyString)))
    with ((pre +:+ String a EmptyString) +:+ String b (String c EmptyString))
    by (by rewrite string_app_assoc).
  replace (String.length pre + 1)
    with (String.length (pre +:+ String a EmptyString))
    by (rewrite string_length_app; simpl; lia).
  by rewrite string_substring_app_l, string_app_assoc.
Qed.

(** X4.  [normalizePattern] rewrites a pattern that ends in [**] after a
    character other than a dot, putting a dot before the [**], and leaves
    every other pattern as it is: one that ends in [.**], the pattern
    [**] alone, and one that does not end in [**].  Normalising twice is
    normalising once. *)
Theorem normalizePattern_rewrites_legacy_suffix :
  (∀ pre a, a ≠ "."%char →
            normalizePattern (pre +:+ String a "**") = pre +:+ String a ".**") ∧
  (∀ pre, normalizePattern (pre +:+ ".**") = pre +:+ ".**") ∧
  normalizePattern "**" = "**" ∧
  (∀ p, normalizePattern p ≠ p →
        ∃ pre a, a ≠ "."%char ∧ p = pre +:+ String a "**") ∧
  (∀ p, normalizePattern (normalizePattern p) = normalizePattern p).
Proof.
  assert (∀ p, normalizePattern p ≠ p →
               ∃ pre a, a ≠ "."%char ∧ p = pre +:+ String a "**") as Hchanged.
  { intros p Hne.
    destruct (decide (3 ≤ String.length p)) as [Hlen|Hlen];
      [|by rewrite normalizePattern_short in Hne by lia].
    destruct (string_suffix3 p Hlen) as (pre & a & b & c & ->).
    rewrite normalizePattern_suffix3 in Hne.
    destruct (bool_decide (c = "*"%char)) eqn:Hc,
             (bool_decide (b = "*"%char)) eqn:Hb,
             (bool_decide (a = "."%char)) eqn:Ha; simpl in Hne; try done.
    apply bool_decide_eq_true_1 in Hc as ->, Hb as ->.
    apply bool_decide_eq_false_1 in Ha. by exists pre, a. }
  split; [|split; [|split; [|split]]].
  - intros pre a Ha. rewrite normalizePattern_suffix3.
    by rewrite (bool_decide_eq_false_2 _ Ha).
  - intros pre. by rewrite normalizePattern_suffix3.
  - reflexivity.
  - exact Hchanged.
  - intros p.
    destruct (decide (normalizePattern p = p)) as [Heq|Hne];
      [by rewrite !Heq|].
    destruct (Hchanged p Hne) as (pre & a & Ha & ->).
    rewrite normalizePattern_suffix3.
    rewrite (bool_decide_eq_false_2 _ Ha). simpl.
    replace (pre +:+ String a ".**")
      with ((pre +:+ String a EmptyString) +:+ ".**")
      by (by rewrite string_app_assoc).
    by rewrite normalizePattern_suffix3.
Qed.

(** ** Registration *)



Lemma getWildcardListeners_added l patternSegments n segments :
  pattern_matches patternSegments segments →
  l ∈ getWildcardListeners (addListener patternSegments l n) segments.
Proof.
  revert n segments.
  induction patternSegments as [|p ps IH]; intros n segments Hm; simpl in Hm.
  - subst segments. simpl. rewrite !elem_of_app, list_elem_of_singleton. auto.
  - destruct (decide (p = "**")) as [->|Hrest].
    + subst ps. simpl.
      destruct segments; simpl; rewrite !elem_of_app, list_elem_of_singleton;
        auto.
    + destruct segments as [|s rest]; [done|]. destruct Hm as [Hp Hm].
      simpl. destruct (decide (p = "*")) as [->|Hstar].
      * simpl. rewrite !elem_of_app. right. right. by apply IH.
      * rewrite decide_False by done. simpl.
        destruct Hp as [?| ->]; [done|].
        rewrite lookup_insert_eq, !elem_of_app. right. left. by apply IH.
Qed.

(** X6.  A listener that [_addMutationListener] returned is called by
    every later emission, on a scope that is not silent and from an idle
    root, of an event at a path its pattern matches, when the listener
    was registered for the type of the event, for its immediate type or
    for the type [all]. *)
Theorem registered_listener_is_called
    (path : Scope → Arg → option string) this type arg1 arg2 arg3 r l r1
    fuel m segments event r' :
  _addMutationListener path this type arg1 arg2 arg3 r
    = Registered (Some l) r1 →
  idle r1 → _silent m = false →
  type = Event_type event ∨ type = Event_immediateType event ∨
    type = "all" →
  pattern_matches (patternSegments l) segments →
  _emitMutation (S fuel) m segments event r1 = Done r' →
  Invoked type segments event l ∈ history r'.
Proof.
  intros Hadd Hidle Hs Htype Hm Hdone.
  assert (l ∈ getWildcardListeners (treeOf r1 type) segments) as Hl.
  { unfold _addMutationListener in Hadd.
    destruct (_mutationListeners r !! type) as [tree|]; [|done].
    destruct (getMutationListener path this type arg1 arg2 arg3)
      as [l0|]; [|done].
    assert (l0 = l ∧ _mutationListeners r1
            = <[type := addListener (patternSegments l0) l0 tree]>
                (_mutationListeners r)) as [-> Htrees]
      by (by destruct (_eventContext this); injection Hadd as <- <-).
    unfold treeOf. rewrite Htrees, lookup_insert_eq. simpl.
    by apply getWildcardListeners_added. }
  destruct (idle_emission_delivers _ _ _ _ _ _ Hs Hidle Hdone)
    as (r2 & Δ & Himm & Hh & HD & _).
  rewrite Hh, elem_of_app.
  destruct Htype as [->|[->| ->]].
  - right. apply dispatched_elem. rewrite HD. unfold delivery; simpl.
    rewrite !elem_of_app. left. left. by apply block_invoked.
  - left. unfold _callMutationListeners, treeOf in *.
    destruct (_mutationListeners r1 !! Event_immediateType event);
      [|done].
    eapply callListeners_invoked;
      [apply (_emitMutation_frame fuel) | exact Himm | exact Hl].
  - right. apply dispatched_elem. rewrite HD. unfold delivery; simpl.
    rewrite !elem_of_app. left. right. by apply block_invoked.
Qed.

(** X6, on the root scope: [on('change', 'rooms.*', cb)] and then a
    change of [rooms.lobby]. *)
Lemma registered_listener_is_called_witness :
  ∃ l r1 r',
    _addMutationListener ExampleRegistration.rootPath Example.model "change"
      (AString "rooms.*") (AFunction ExampleRegistration.callback)
      AUndefined Example.start = Registered (Some l) r1 ∧
    _emitMutation 1 Example.model ["rooms"; "lobby"] (Example.change 1) r1
      = Done r' ∧
    Invoked "change" ["rooms"; "lobby"] (Example.change 1) l ∈ history r'.
Proof.
  eexists _, _, _. split; [vm_compute; reflexivity|].
  split; [vm_compute; reflexivity|].
  eapply (registered_listener_is_called ExampleRegistration.rootPath
            Example.model "change" (AString "rooms.*")
            (AFunction ExampleRegistration.callback) AUndefined
            Example.start _ _ 0 Example.model).
  - vm_compute; reflexivity.
  - split; reflexivity.
  - reflexivity.
  - left. reflexivity.
  - vm_compute. auto.
  - vm_compute; reflexivity.
Defined.

Lemma getWildcardListeners_emptyNode segments :
  getWildcardListeners emptyNode segments = [].
Proof. by destruct segments. Qed.

Lemma initEvents_trees r0 event :
  _mutationListeners (initEvents r0) !! Event_type event = Some emptyNode ∧
  _mutationListeners (initEvents r0) !! Event_immediateType event
    = Some emptyNode ∧
  _mutationListeners (initEvents r0) !! "all" = Some emptyNode.
Proof. destruct event; repeat split; vm_compute; reflexivity. Qed.

(** X7.  The initialiser gives every event type, every immediate type
    and [all] an empty tree and leaves the emitter idle: on a root it has
    just set up, an emission of any event at any path, through any scope,
    returns normally, calls nothing and changes nothing. *)
Theorem fresh_root_emits_nothing fuel m segments event r0 :
  idle (initEvents r0) ∧
  _emitMutation (S fuel) m segments event (initEvents r0)
  = Done (initEvents r0).
Proof.
  split; [done|].
  destruct (initEvents_trees r0 event) as (Hown & Himm & Hall).
  simpl. unfold emitMutation_body. destruct (_silent m); [done|].
  unfold _callMutationListeners at 1. rewrite Himm.
  rewrite getWildcardListeners_emptyNode. simpl.
  unfold afterImmediate. simpl.
  unfold _callMutationListeners. simpl in *. rewrite Hown.
  rewrite getWildcardListeners_emptyNode. simpl. rewrite Hall.
  by rewrite getWildcardListeners_emptyNode.
Qed.

(** ** Document retention *)

Lemma query_holds_true id query :
  query_holds id query = true ↔
  (subscribeCount query ≠ 0 ∨ fetchCount query ≠ 0)%Z ∧
  ∃ n, idMap query !! id = Some n ∧ (0 < n)%Z.
Proof.
  unfold query_holds, number_truthy.
  destruct (Z.eqb_spec (subscribeCount query) 0) as [Hs|Hs],
           (Z.eqb_spec (fetchCount query) 0) as [Hf|Hf]; simpl;
    destruct (idMap query !! id) as [n|]; split;
    try (intros [[?|?] (? & ? & ?)]); try done; try lia;
    try (intros Hn; apply Z.ltb_lt in Hn; split; [auto|eauto]);
    simplify_eq; by apply Z.ltb_lt.
Qed.

Lemma hasDocReferences_cases collectionName id r :
  _hasDocReferences collectionName id r = true →
  CollectionCounter_get (_fetchedDocs r) collectionName id ≠ 0 ∨
  CollectionCounter_get (_subscribedDocs r) collectionName id ≠ 0 ∨
  ∃ queries hash query,
    _queries r !! collectionName = Some queries ∧
    queries !! hash = Some query ∧ query_holds id query = true.
Proof.
  unfold _hasDocReferences.
  rewrite !orb_true_iff, !negb_true_iff, !bool_decide_eq_false.
  intros [[Hq|Hf]|Hs]; [|by left|by right; left].
  right; right.
  destruct (_queries r !! collectionName) as [queries|]; [|done].
  apply existsb_exists in Hq as ([hash query] & Hin & Hholds).
  apply list_elem_of_In, elem_of_map_to_list in Hin.
  by exists queries, hash, query.
Qed.

(** X8.  [_hasDocReferences] answers true exactly when the fetched count
    or the subscribed count of the document is not 0, or some query of
    its collection whose subscribe count or fetch count is not 0 lists
    the id with a positive number; a query with both counts 0 holds no
    document, whatever it lists. *)
Theorem hasDocReferences_iff collectionName id r :
  _hasDocReferences collectionName id r = true ↔
  CollectionCounter_get (_fetchedDocs r) collectionName id ≠ 0 ∨
  CollectionCounter_get (_subscribedDocs r) collectionName id ≠ 0 ∨
  ∃ queries hash query n,
    _queries r !! collectionName = Some queries ∧
    queries !! hash = Some query ∧
    (subscribeCount query ≠ 0 ∨ fetchCount query ≠ 0)%Z ∧
    idMap query !! id = Some n ∧ (0 < n)%Z.
Proof.
  unfold _hasDocReferences.
  rewrite !orb_true_iff, !negb_true_iff, !bool_decide_eq_false.
  split.
  - intros [[Hq|Hf]|Hs]; [|by left|by right; left].
    right; right.
    destruct (_queries r !! collectionName) as [queries|]; [|done].
    apply existsb_exists in Hq as ([hash query] & Hin & Hholds).
    apply list_elem_of_In, elem_of_map_to_list in Hin.
    apply query_holds_true in Hholds as (Hlive & n & Hn & Hpos).
    by exists queries, hash, query, n.
  - intros [Hf|[Hs|(queries & hash & query & n & Hq & Hh & Hlive & Hn & Hp)]];
      [by left; right|by right|].
    left; left. rewrite Hq. apply existsb_exists. exists (hash, query).
    split; [by apply list_elem_of_In, elem_of_map_to_list|].
    apply query_holds_true. eauto.
Qed.

Lemma CollectionCounter_decrement_get c collectionName id n :
  CollectionCounter_get c collectionName id = S n →
  (CollectionCounter_decrement c collectionName id).2 = n ∧
  CollectionCounter_get (CollectionCounter_decrement c collectionName id).1
    collectionName id = n ∧
  ∀ otherName other,
    (otherName, other) ≠ (collectionName, id) →
    CollectionCounter_get (CollectionCounter_decrement c collectionName id).1
      otherName other
    = CollectionCounter_get c otherName other.
Proof.
  intros Hget. unfold CollectionCounter_decrement. rewrite Hget. simpl.
  split; [done|]. unfold CollectionCounter_get in *. split.
  - by rewrite lookup_insert_eq; simpl; rewrite lookup_insert_eq.
  - intros otherName other Hne.
    destruct (decide (otherName = collectionName)) as [->|Hc].
    + rewrite lookup_insert_eq. simpl.
      rewrite lookup_insert_ne by congruence.
      by destruct (c !! collectionName).
    + by rewrite lookup_insert_ne.
Qed.

(** X9.  When more than one fetch of the document is counted,
    [finishUnfetchDoc] takes one off the count and calls the callback with
    no error and the count that is left; it attempts no eviction: with
    the default callback the data, the calls on synchronisation handles
    and the history stay as they are.  [finishUnsubscribeDoc] does the
    same with the subscribed count, and calls no [unsubscribe] on the
    handle. *)
Theorem finish_with_references_left
    (EventEmitter_emit : string → Thrown → Root → Outcome) fuel model
    collectionName id r n :
  (CollectionCounter_get (_fetchedDocs r) collectionName id = S (S n) →
   ∃ r1,
     (∀ cb, finishUnfetchDoc EventEmitter_emit fuel model collectionName id
              cb r
            = callCallback EventEmitter_emit fuel cb
                (MkCbArgs None (Some (S n))) r1) ∧
     finishUnfetchDoc EventEmitter_emit fuel model collectionName id
       defaultCallback r = Done r1 ∧
     CollectionCounter_get (_fetchedDocs r1) collectionName id = S n ∧
     _subscribedDocs r1 = _subscribedDocs r ∧
     collections r1 = collections r ∧ shareCalls r1 = shareCalls r ∧
     timers r1 = timers r ∧ history r1 = history r) ∧
  (CollectionCounter_get (_subscribedDocs r) collectionName id = S (S n) →
   ∃ r1,
     (∀ cb, finishUnsubscribeDoc EventEmitter_emit fuel model collectionName
              id cb r
            = callCallback EventEmitter_emit fuel cb
                (MkCbArgs None (Some (S n))) r1) ∧
     finishUnsubscribeDoc EventEmitter_emit fuel model collectionName id
       defaultCallback r = Done r1 ∧
     CollectionCounter_get (_subscribedDocs r1) collectionName id = S n ∧
     _fetchedDocs r1 = _fetchedDocs r ∧
     collections r1 = collections r ∧ shareCalls r1 = shareCalls r ∧
     timers r1 = timers r ∧ history r1 = history r).
Proof.
  split; intros Hget;
    destruct (CollectionCounter_decrement_get _ _ _ _ Hget) as (Hc & Hg & _).
  - exists (with_fetchedDocs
              (CollectionCounter_decrement (_fetchedDocs r)
                 collectionName id).1 r).
    assert (∀ cb, finishUnfetchDoc EventEmitter_emit fuel model
                    collectionName id cb r
                  = callCallback EventEmitter_emit fuel cb
                      (MkCbArgs None (Some (S n)))
                      (with_fetchedDocs
                         (CollectionCounter_decrement (_fetchedDocs r)
                            collectionName id).1 r)) as Hrun.
    { intros cb. unfold finishUnfetchDoc.
      destruct (CollectionCounter_decrement _ _ _) as [counter count].
      simpl in *. subst count. done. }
    split; [exact Hrun|]. rewrite Hrun. by repeat split.
  - exists (with_subscribedDocs
              (CollectionCounter_decrement (_subscribedDocs r)
                 collectionName id).1 r).
    assert (∀ cb, finishUnsubscribeDoc EventEmitter_emit fuel model
                    collectionName id cb r
                  = callCallback EventEmitter_emit fuel cb
                      (MkCbArgs None (Some (S n)))
                      (with_subscribedDocs
                         (CollectionCounter_decrement (_subscribedDocs r)
                            collectionName id).1 r)) as Hrun.
    { intros cb. unfold finishUnsubscribeDoc.
      destruct (CollectionCounter_decrement _ _ _) as [counter count].
      simpl in *. subst count. done. }
    split; [exact Hrun|]. rewrite Hrun. by repeat split.
Qed.

(** X9, on [ExampleCounts.held], where document 1 is fetched twice. *)
Lemma finish_with_references_left_witness :
  ∃ r1,
    finishUnfetchDoc ExampleCallbacks.unhandled 1 Example.model "posts" "1"
      defaultCallback ExampleCounts.held = Done r1 ∧
    CollectionCounter_get (_fetchedDocs r1) "posts" "1" = 1 ∧
    collections r1 = collections ExampleCounts.held ∧
    history r1 = history ExampleCounts.held.
Proof.
  destruct (proj1 (finish_with_references_left ExampleCallbacks.unhandled 1
                     Example.model "posts" "1" ExampleCounts.held 0))
    as (r1 & _ & Hrun & Hcount & _ & Hdata & _ & _ & Hhistory);
    [reflexivity|].
  by exists r1.
Defined.

Lemma andThen_Done_r o : o >>- Done = o.
Proof. by destruct o. Qed.

Lemma getDoc_removed collectionName id r doc :
  getDoc r collectionName id = Some doc →
  getDoc (Collection_remove collectionName id r) collectionName id = None ∧
  ∀ c i, (c, i) ≠ (collectionName, id) →
         getDoc (Collection_remove collectionName id r) c i = getDoc r c i.
Proof.
  unfold getDoc, Collection_remove. intros Hdoc.
  destruct (collections r !! collectionName) as [docs|] eqn:Hdocs; [|done].
  simpl in *. split.
  - rewrite lookup_insert_eq. simpl. apply lookup_delete_eq.
  - intros c i Hne. destruct (decide (c = collectionName)) as [->|Hc].
    + rewrite lookup_insert_eq, Hdocs. simpl.
      apply lookup_delete_ne. congruence.
    + by rewrite lookup_insert_ne.
Qed.

(** X10.  Through a silent scope, evicting a document that nothing
    references and that has nothing pending removes it and destroys its
    handle without calling any listener or touching the pending queue,
    whatever listeners are registered; and evicting is idempotent: a second
    [_maybeUnloadDoc] changes nothing. *)
Theorem silent_eviction_is_quiet_and_idempotent fuel this value
    collectionName id r doc :
  _silent (silent this value) = true →
  getDoc r collectionName id = Some doc →
  _hasDocReferences collectionName id r = false →
  match shareDoc doc with Some sd => hasPending sd | None => false end
    = false →
  ∃ r',
    _maybeUnloadDoc (S fuel) (silent this value) collectionName id r
      = Done r' ∧
    getDoc r' collectionName id = None ∧
    (∀ c i, (c, i) ≠ (collectionName, id) → getDoc r' c i = getDoc r c i) ∧
    shareCalls r' = shareCalls r ++
                    match shareDoc doc with
                    | Some _ => [sd_destroy collectionName id]
                    | None => []
                    end ∧
    history r' = history r ∧
    _mutationEventQueue r' = _mutationEventQueue r ∧
    _emittingMutation r' = _emittingMutation r ∧
    _maybeUnloadDoc (S fuel) (silent this value) collectionName id r'
      = Done r'.
Proof.
  intros Hs Hdoc Hnone Hpending.
  destruct (getDoc_removed _ _ _ _ Hdoc) as [Hgone Hothers].
  set (r1 := Collection_remove collectionName id r) in *.
  assert (shareCalls r1 = shareCalls r ∧ history r1 = history r ∧
          _mutationEventQueue r1 = _mutationEventQueue r ∧
          _emittingMutation r1 = _emittingMutation r) as (H1 & H2 & H3 & H4).
  { subst r1. unfold Collection_remove.
    by destruct (collections r !! collectionName). }
  exists (match shareDoc doc with
          | Some _ => share_call (sd_destroy collectionName id) r1
          | None => r1
          end).
  split.
  { unfold _maybeUnloadDoc. rewrite Hdoc, Hnone, Hpending. simpl.
    unfold emitMutation_body. by rewrite Hs. }
  destruct (shareDoc doc); simpl; rewrite ?app_nil_r;
    repeat split; try done; try congruence;
    unfold _maybeUnloadDoc;
    change (getDoc (share_call (sd_destroy collectionName id) r1)
              collectionName id) with (getDoc r1 collectionName id);
    by rewrite Hgone.
Qed.

(** X10, on [ExampleDocs.loaded], which has a listener for [unload]
    events of the document: [silent()] on the root scope. *)
Lemma silent_eviction_is_quiet_and_idempotent_witness :
  ∃ r',
    _maybeUnloadDoc 1 (silent Example.model None) "posts" "1"
      ExampleDocs.loaded = Done r' ∧
    getDoc r' "posts" "1" = None ∧
    history r' = [] ∧
    _maybeUnloadDoc 1 (silent Example.model None) "posts" "1" r' = Done r'.
Proof.
  destruct (silent_eviction_is_quiet_and_idempotent 0 Example.model None
              "posts" "1" ExampleDocs.loaded ExampleDocs.post)
    as (r' & Hrun & Hgone & _ & _ & Hhistory & _ & _ & Hagain);
    [reflexivity | vm_compute; reflexivity..|].
  by exists r'.
Defined.

(** X11.  The last unfetch evicts.  On a root without unload delay, with
    the document fetched once, not subscribed, listed by no live query and
    with nothing pending, [unfetchDoc] without a callback tells the
    context, takes the count to 0, removes the document, destroys its
    handle and is from there the emission of the Unload event carrying
    the value the document had. *)
Theorem last_unfetch_evicts
    (EventEmitter_emit : string → Thrown → Root → Outcome) fuel model
    collectionName id r doc :
  unloadDelay r = 0%Z →
  CollectionCounter_get (_fetchedDocs r) collectionName id = 1 →
  CollectionCounter_get (_subscribedDocs r) collectionName id = 0 →
  (∀ queries hash query,
     _queries r !! collectionName = Some queries →
     queries !! hash = Some query → query_holds id query = false) →
  getDoc r collectionName id = Some doc →
  match shareDoc doc with Some sd => hasPending sd | None => false end
    = false →
  ∃ r2,
    unfetchDoc EventEmitter_emit fuel model collectionName id None r
    = _emitMutation fuel model [collectionName; id]
        (UnloadEvent (doc_get doc) (_pass model)) r2 ∧
    getDoc r2 collectionName id = None ∧
    CollectionCounter_get (_fetchedDocs r2) collectionName id = 0 ∧
    contextCalls r2 = contextCalls r ++ [ctx_unfetchDoc collectionName id] ∧
    shareCalls r2 = shareCalls r ++
                    match shareDoc doc with
                    | Some _ => [sd_destroy collectionName id]
                    | None => []
                    end ∧
    timers r2 = timers r ∧ history r2 = history r.
Proof.
  intros Hdelay Hfetched Hsubscribed Hqueries Hdoc Hpending.
  destruct (CollectionCounter_decrement_get _ _ _ _ Hfetched)
    as (Hcount & Hzero & _).
  set (r0 := context_call (ctx_unfetchDoc collectionName id) r).
  set (r1 := with_fetchedDocs
               (CollectionCounter_decrement (_fetchedDocs r)
                  collectionName id).1 r0).
  assert (_hasDocReferences collectionName id r1 = false) as Hnone.
  { apply not_true_is_false. intros Href.
    apply hasDocReferences_cases in Href
      as [Hf|[Hs|(queries & hash & query & Hq & Hh & Hholds)]].
    - by apply Hf.
    - by apply Hs.
    - by rewrite (Hqueries _ _ _ Hq Hh) in Hholds. }
  assert (getDoc r1 collectionName id = Some doc) as Hdoc1 by done.
  destruct (getDoc_removed _ _ _ _ Hdoc1) as [Hgone _].
  set (r2 := Collection_remove collectionName id r1) in *.
  assert (_fetchedDocs r2 = _fetchedDocs r1 ∧
          contextCalls r2 = contextCalls r1 ∧ shareCalls r2 = shareCalls r ∧
          timers r2 = timers r ∧ history r2 = history r)
    as (H1 & H2 & H3 & H4 & H5).
  { subst r2. unfold Collection_remove.
    by destruct (collections r1 !! collectionName). }
  exists (match shareDoc doc with
          | Some _ => share_call (sd_destroy collectionName id) r2
          | None => r2
          end).
  split.
  { unfold unfetchDoc. simpl.
    rewrite bool_decide_eq_false_2
      by (change (_fetchedDocs (context_call _ r)) with (_fetchedDocs r);
          lia).
    change (unloadDelay (context_call (ctx_unfetchDoc collectionName id) r))
      with (unloadDelay r). rewrite Hdelay. simpl.
    unfold finishUnfetchDoc. fold r0.
    change (_fetchedDocs r0) with (_fetchedDocs r).
    destruct (CollectionCounter_decrement (_fetchedDocs r) collectionName id)
      as [counter count] eqn:Hdec. simpl in Hcount. subst count. simpl.
    change (with_fetchedDocs counter r0) with r1.
    unfold _maybeUnloadDoc. rewrite Hdoc1, Hnone, Hpending. simpl.
    fold r2. by rewrite andThen_Done_r. }
  assert (CollectionCounter_get (_fetchedDocs r2) collectionName id = 0)
    as Hzero2 by (by rewrite H1).
  destruct (shareDoc doc); simpl; rewrite ?app_nil_r;
    (split; [exact Hgone|]); (split; [exact Hzero2|]);
    (split; [exact H2|]); (split; [by rewrite H3|]); by split.
Qed.

(** X11, on [ExampleCounts.fetchedOnce]: the only fetch of document 1 is given
    up, and the listener for [unload] events is called. *)
Lemma last_unfetch_evicts_witness :
  (∃ r2,
     unfetchDoc ExampleCallbacks.unhandled 2 Example.model "posts" "1" None
       ExampleCounts.fetchedOnce
     = _emitMutation 2 Example.model ["posts"; "1"]
         (UnloadEvent (VStr "hello") (VRef 1%positive)) r2 ∧
     getDoc r2 "posts" "1" = None ∧
     CollectionCounter_get (_fetchedDocs r2) "posts" "1" = 0) ∧
  ∃ r',
    unfetchDoc ExampleCallbacks.unhandled 2 Example.model "posts" "1" None
      ExampleCounts.fetchedOnce = Done r' ∧
    dispatched (history r') =
      block "unload" ["posts"; "1"]
        (UnloadEvent (VStr "hello") (VRef 1%positive))
        [Example.quiet ["posts"; "*"]].
Proof.
  split.
  - destruct (last_unfetch_evicts ExampleCallbacks.unhandled 2 Example.model
                "posts" "1" ExampleCounts.fetchedOnce ExampleDocs.post)
      as (r2 & Hrun & Hgone & Hzero & _);
      [reflexivity | reflexivity | reflexivity | | reflexivity | reflexivity
      | by exists r2].
    intros queries hash query Hq. vm_compute in Hq. discriminate.
  - eexists. split; vm_compute; reflexivity.
Defined.

Lemma maybeUnloadDoc_keeps_referenced fuel model collectionName id r :
  CollectionCounter_get (_fetchedDocs r) collectionName id ≠ 0 ∨
  CollectionCounter_get (_subscribedDocs r) collectionName id ≠ 0 →
  _maybeUnloadDoc fuel model collectionName id r = Done r.
Proof.
  intros Hheld. unfold _maybeUnloadDoc.
  destruct (getDoc r collectionName id); [|done].
  rewrite referenced_hasDocReferences; [done|].
  destruct Hheld; [left|right; left]; lia.
Qed.

(** X12.  Giving up the last subscription of a document that has a
    synchronisation handle, on a root that is not fetch-only: the count
    goes to 0 and [unsubscribe] is called on the handle, once; nothing
    else happens until the handle calls back: the callback is not called,
    no eviction is attempted, the document stays.  On a fetch-only root,
    or for a document without a handle, no [unsubscribe] is called: the
    eviction attempt and the callback follow at once. *)
Theorem last_unsubscribe_goes_through_the_handle
    (EventEmitter_emit : string → Thrown → Root → Outcome) fuel model
    collectionName id cb r :
  CollectionCounter_get (_subscribedDocs r) collectionName id = 1 →
  ∃ r1,
    CollectionCounter_get (_subscribedDocs r1) collectionName id = 0 ∧
    _fetchedDocs r1 = _fetchedDocs r ∧ collections r1 = collections r ∧
    shareCalls r1 = shareCalls r ∧ timers r1 = timers r ∧
    history r1 = history r ∧
    (fetchOnly r = false →
     is_Some (getDoc r collectionName id ≫= shareDoc) →
     finishUnsubscribeDoc EventEmitter_emit fuel model collectionName id cb r
     = Done (share_call
               (sd_unsubscribe collectionName id
                  (thunk_unsubscribeDocCallback model collectionName id cb))
               r1)) ∧
    (fetchOnly r = true ∨ getDoc r collectionName id ≫= shareDoc = None →
     finishUnsubscribeDoc EventEmitter_emit fuel model collectionName id cb r
     = _maybeUnloadDoc fuel model collectionName id r1 >>-
       callCallback EventEmitter_emit fuel cb (MkCbArgs None (Some 0))).
Proof.
  intros Hget.
  destruct (CollectionCounter_decrement_get _ _ _ _ Hget) as (Hc & Hzero & _).
  exists (with_subscribedDocs
            (CollectionCounter_decrement (_subscribedDocs r)
               collectionName id).1 r).
  repeat split; try done.
  - intros Hfo [sd Hsd]. unfold finishUnsubscribeDoc.
    destruct (CollectionCounter_decrement _ _ _) as [counter count].
    simpl in *. subst count. simpl. rewrite Hfo.
    change (getDoc (with_subscribedDocs counter r) collectionName id)
      with (getDoc r collectionName id). by rewrite Hsd.
  - intros Hnone. unfold finishUnsubscribeDoc.
    destruct (CollectionCounter_decrement _ _ _) as [counter count].
    simpl in *. subst count. simpl.
    change (getDoc (with_subscribedDocs counter r) collectionName id)
      with (getDoc r collectionName id).
    destruct (fetchOnly r); [done|].
    destruct Hnone as [?| ->]; done.
Qed.

(** X12, on [ExampleCounts.subscribedOnce]: document 1 has a handle. *)
Lemma last_unsubscribe_goes_through_the_handle_witness :
  ∃ r1,
    finishUnsubscribeDoc ExampleCallbacks.unhandled 1 Example.model
      "posts" "1" defaultCallback ExampleCounts.subscribedOnce
    = Done (share_call
              (sd_unsubscribe "posts" "1"
                 (thunk_unsubscribeDocCallback Example.model "posts" "1"
                    defaultCallback)) r1) ∧
    CollectionCounter_get (_subscribedDocs r1) "posts" "1" = 0 ∧
    collections r1 = collections ExampleCounts.subscribedOnce.
Proof.
  destruct (last_unsubscribe_goes_through_the_handle
              ExampleCallbacks.unhandled 1 Example.model "posts" "1"
              defaultCallback ExampleCounts.subscribedOnce)
    as (r1 & Hzero & _ & Hdata & _ & _ & _ & Hhandle & _); [reflexivity|].
  exists r1. split; [|by split].
  apply Hhandle; [reflexivity|]. vm_compute. eauto.
Defined.

(** X13.  While a fetch of the document is still counted, the end of an
    unsubscribe leaves the document alone: [unsubscribeDocCallback],
    which the handle calls back or which follows at once, attempts the
    eviction, changes nothing, and calls the callback with the error the
    handle reported, or with no error and the count 0. *)
Theorem unsubscribe_keeps_a_fetched_doc
    (EventEmitter_emit : string → Thrown → Root → Outcome) fuel model
    collectionName id cb err r :
  CollectionCounter_get (_fetchedDocs r) collectionName id ≠ 0 →
  runThunk EventEmitter_emit fuel
    (thunk_unsubscribeDocCallback model collectionName id cb) err r
  = callCallback EventEmitter_emit fuel cb
      (match err with
       | Some e => if thrown_truthy e then MkCbArgs (Some e) None
                   else MkCbArgs None (Some 0)
       | None => MkCbArgs None (Some 0)
       end) r ∧
  runThunk EventEmitter_emit fuel
    (thunk_unsubscribeDocCallback model collectionName id defaultCallback)
    None r = Done r.
Proof.
  intros Hheld. simpl. unfold unsubscribeDocCallback.
  rewrite maybeUnloadDoc_keeps_referenced by auto. simpl.
  split; [|done]. destruct err as [e|]; [|done].
  by destruct (thrown_truthy e).
Qed.

(** X13, on [ExampleCounts.held], where document 1 is fetched twice. *)
Lemma unsubscribe_keeps_a_fetched_doc_witness :
  runThunk ExampleCallbacks.unhandled 1
    (thunk_unsubscribeDocCallback Example.model "posts" "1" defaultCallback)
    None ExampleCounts.held = Done ExampleCounts.held.
Proof.
  apply (unsubscribe_keeps_a_fetched_doc ExampleCallbacks.unhandled 1
           Example.model "posts" "1" defaultCallback None ExampleCounts.held).
  vm_compute. discriminate.
Defined.

(** ** The in-flight flag after an exception *)

Lemma stays_inflight_Done r : _emittingMutation r = true → stays_inflight (Done r).
Proof.
  intros Hf r' Hr. change (Some r = Some r') in Hr. by injection Hr as <-.
Qed.

Lemma stays_inflight_andThen o k :
  stays_inflight o →
  (∀ r1, _emittingMutation r1 = true → stays_inflight (k r1)) →
  stays_inflight (o >>- k).
Proof.
  intros Ho Hk. destruct o as [r1|e r1|]; simpl; [|done..].
  apply Hk, Ho. done.
Qed.

Section StaysInFlight.
Variable emit : Scope → Segments → Event → Root → Outcome.
Hypothesis emit_stays : ∀ m segments event r,
  _emittingMutation r = true → stays_inflight (emit m segments event r).

Lemma runCmd_stays c r :
  _emittingMutation r = true → stays_inflight (runCmd emit c r).
Proof.
  revert r; induction c as [|m s e k IH|k IH|d k IH|e]; intros r Hf; simpl.
  - by apply stays_inflight_Done.
  - apply stays_inflight_andThen; [by apply emit_stays | exact IH].
  - by apply IH.
  - by apply IH.
  - intros r' Hr. change (Some r = Some r') in Hr. by injection Hr as <-.
Qed.

Lemma callListeners_stays type segments event ls r :
  _emittingMutation r = true →
  stays_inflight (callListeners emit type segments event ls r).
Proof.
  revert r; induction ls as [|l ls IH]; intros r Hf; simpl.
  - by apply stays_inflight_Done.
  - apply stays_inflight_andThen; [by apply runCmd_stays|].
    intros r1 Hf1. by apply IH.
Qed.

Lemma _callMutationListeners_stays type segments event r :
  _emittingMutation r = true →
  stays_inflight (_callMutationListeners emit type segments event r).
Proof.
  intros Hf. unfold _callMutationListeners.
  destruct (_mutationListeners r !! type).
  - by apply callListeners_stays.
  - intros r' Hr. change (Some r = Some r') in Hr. by injection Hr as <-.
Qed.

Lemma dispatchQueue_stays queue r :
  _emittingMutation r = true → stays_inflight (dispatchQueue emit queue r).
Proof.
  revert r; induction queue as [|[s e] q IH]; intros r Hf; simpl.
  - by apply stays_inflight_Done.
  - repeat apply stays_inflight_andThen;
      [by apply _callMutationListeners_stays | |exact IH].
    intros r1 Hf1. by apply _callMutationListeners_stays.
Qed.

Lemma drain_stays limit r :
  _emittingMutation r = true → stays_inflight (drain emit limit r).
Proof.
  revert r; induction limit as [|n IH]; intros r Hf; simpl;
    destruct (_mutationEventQueue r); try (by apply stays_inflight_Done).
  apply stays_inflight_andThen; [by apply dispatchQueue_stays | exact IH].
Qed.

Lemma emitMutation_body_stays m segments event r :
  _emittingMutation r = true →
  stays_inflight (emitMutation_body emit m segments event r).
Proof.
  intros Hf. unfold emitMutation_body.
  destruct (_silent m); [by apply stays_inflight_Done|].
  apply stays_inflight_andThen; [by apply _callMutationListeners_stays|].
  intros r1 Hf1. unfold afterImmediate. rewrite Hf1.
  by apply stays_inflight_Done.
Qed.
End StaysInFlight.

Lemma _emitMutation_stays fuel m segments event r :
  _emittingMutation r = true →
  stays_inflight (_emitMutation fuel m segments event r).
Proof.
  revert m segments event r; induction fuel as [|fuel IH]; intros; simpl;
    [done|]. by apply emitMutation_body_stays.
Qed.

(** X14.  An exception that leaves the ordered phase of an emission (a
    listener of the own type or of type [all] that throws, for the
    triggering event or for a queued one, or the cycle error) leaves the
    in-flight flag set: the flag is cleared on normal return only.  From
    then on an emission whose immediate listeners return is only
    appended to the pending queue: no own-type or [all] listener is
    called. *)
Theorem exception_leaves_emitter_in_flight fuel m segments event r r1 err r' :
  _silent m = false →
  _callMutationListeners (_emitMutation fuel) (Event_immediateType event)
    segments event r = Done r1 →
  _emittingMutation r1 = false →
  _emitMutation (S fuel) m segments event r = Threw err r' →
  _emittingMutation r' = true ∧
  ∀ m2 segments2 event2 r2,
    _silent m2 = false →
    _callMutationListeners (_emitMutation fuel)
      (Event_immediateType event2) segments2 event2 r' = Done r2 →
    _emitMutation (S fuel) m2 segments2 event2 r'
      = Done (enqueue segments2 event2 r2) ∧
    ∃ Δ, history (enqueue segments2 event2 r2) = history r' ++ Δ ∧
         dispatched Δ = [].
Proof.
  intros Hs Himm Hf1 Hthrew.
  assert (_emittingMutation r' = true) as Hf.
  { change (_emitMutation (S fuel) m segments event r)
      with (emitMutation_body (_emitMutation fuel) m segments event r)
      in Hthrew.
    unfold emitMutation_body, afterImmediate in Hthrew.
    rewrite Hs, Himm, andThen_Done_l, Hf1 in Hthrew.
    remember (_callMutationListeners (_emitMutation fuel) (Event_type event)
                segments event (with_emittingMutation true r1) >>-
              _callMutationListeners (_emitMutation fuel) "all"
                segments event >>-
              drain (_emitMutation fuel) 1000) as o eqn:Ho.
    assert (stays_inflight o) as Hstays.
    { subst o. repeat apply stays_inflight_andThen.
      - by apply _callMutationListeners_stays; [apply _emitMutation_stays|].
      - intros r2 Hf2.
        by apply _callMutationListeners_stays; [apply _emitMutation_stays|].
      - intros r2 Hf2. by apply drain_stays; [apply _emitMutation_stays|]. }
    clear Ho. destruct o as [r4|e r4|]; [done| |done].
    injection Hthrew as <- <-. by apply Hstays. }
  split; [exact Hf|]. intros m2 segments2 event2 r2 Hs2 Himm2.
  destruct (emitMutation_body_enqueues _ (_emitMutation_inflight fuel)
              m2 segments2 event2 r' r2 Hs2 Hf Himm2)
    as [He [_ (Δ & Hh & HD & _)]].
  split; [exact He|]. exists (Δ ++ [Enqueued segments2 event2]).
  simpl. rewrite Hh. split; [by rewrite app_assoc|].
  by rewrite dispatched_app, HD.
Qed.

(** X14, on [Example.failing], whose first listener throws: the change
    that follows is enqueued and reaches no listener. *)
Lemma exception_leaves_emitter_in_flight_witness :
  _emitMutation 2 Example.model ["n"] (Example.change 0) Example.failing
    = Threw (ErrorObj [Text "boom"] None) ExampleStuck.stuck ∧
  _emittingMutation ExampleStuck.stuck = true ∧
  _emitMutation 2 Example.model ["n"] (Example.change 1) ExampleStuck.stuck
    = Done (enqueue ["n"] (Example.change 1) ExampleStuck.stuck).
Proof.
  assert (_emitMutation 2 Example.model ["n"] (Example.change 0)
            Example.failing
          = Threw (ErrorObj [Text "boom"] None) ExampleStuck.stuck) as Hthrew
    by (vm_compute; reflexivity).
  assert (_callMutationListeners (_emitMutation 1)
            (Event_immediateType (Example.change 0)) ["n"] (Example.change 0)
            Example.failing = Done Example.failing) as Himm
    by (vm_compute; reflexivity).
  assert (_callMutationListeners (_emitMutation 1)
            (Event_immediateType (Example.change 1)) ["n"] (Example.change 1)
            ExampleStuck.stuck = Done ExampleStuck.stuck) as Himm2
    by (vm_compute; reflexivity).
  destruct (exception_leaves_emitter_in_flight 1 Example.model ["n"]
              (Example.change 0) Example.failing Example.failing
              (ErrorObj [Text "boom"] None) ExampleStuck.stuck
              eq_refl Himm eq_refl Hthrew) as [Hflag Hnext].
  destruct (Hnext Example.model ["n"] (Example.change 1) ExampleStuck.stuck
              eq_refl Himm2) as [Hdone _].
  by split; [|split].
Defined.

(** ** Chains of passed contexts *)

Lemma pass_heap this supplied invert (h : gmap loc (gmap string Value))
    parent inherited props :
  _pass this = VRef parent → h !! parent = Some inherited →
  h !! supplied = Some props →
  Passed.pass this (VRef supplied) invert h
  = (MkScope (_at this) (VRef (fresh (dom h))) (_silent this)
       (_eventContext this),
     <[fresh (dom h) := merged_context invert inherited props]> h).
Proof.
  intros Hp Hparent Hsupplied.
  set (passed := fresh (dom h)).
  assert (h !! passed = None) as Hfresh
    by apply not_elem_of_dom, is_fresh.
  assert (parent ≠ passed) as Hn1 by congruence.
  assert (supplied ≠ passed) as Hn2 by congruence.
  unfold Passed.pass, Passed.with_pass, Passed._child; simpl.
  fold passed. rewrite Hp. f_equal.
  apply map_eq. intros l. unfold merged_context.
  destruct invert; simpl.
  - rewrite lookup_insert_ne, Hsupplied by done.
    rewrite lookup_alter_ne, lookup_insert_ne, Hparent by done.
    destruct (decide (l = passed)) as [->|Hl].
    + rewrite !lookup_alter_eq, !lookup_insert_eq. simpl.
      by rewrite (right_id_L ∅ (∪)).
    + by rewrite !lookup_alter_ne, !lookup_insert_ne.
  - rewrite lookup_insert_ne, Hparent by done.
    rewrite lookup_alter_ne, lookup_insert_ne, Hsupplied by done.
    destruct (decide (l = passed)) as [->|Hl].
    + rewrite !lookup_alter_eq, !lookup_insert_eq. simpl.
      by rewrite (right_id_L ∅ (∪)).
    + by rewrite !lookup_alter_ne, !lookup_insert_ne.
Qed.

(** X15.  Contexts accumulate along a chain of [pass] calls: after
    [pass(first, invert1)] and then, on the scope it returned,
    [pass(second, invert2)], the context of the last scope is the merge
    of the second object with the merge of the first object with the
    root's context, each merge taken in the direction of its [invert];
    the context of the scope in between is still the first merge, and the
    two scopes have different context objects. *)
Theorem pass_chain this (h : gmap loc (gmap string Value)) parent inherited
    first props1 invert1 second props2 invert2 :
  _pass this = VRef parent → h !! parent = Some inherited →
  h !! first = Some props1 → h !! second = Some props2 →
  let one := Passed.pass this (VRef first) invert1 h in
  let two := Passed.pass one.1 (VRef second) invert2 one.2 in
  ∃ passed1 passed2,
    _pass one.1 = VRef passed1 ∧ _pass two.1 = VRef passed2 ∧
    passed1 ≠ passed2 ∧
    two.2 !! passed1 = Some (merged_context invert1 inherited props1) ∧
    two.2 !! passed2
    = Some (merged_context invert2
              (merged_context invert1 inherited props1) props2) ∧
    two.2 !! parent = Some inherited.
Proof.
  intros Hp Hparent Hfirst Hsecond. cbv zeta.
  set (passed1 := fresh (dom h)).
  assert (h !! passed1 = None) as Hfresh1
    by apply not_elem_of_dom, is_fresh.
  set (context1 := merged_context invert1 inherited props1).
  set (scope1 := MkScope (_at this) (VRef passed1) (_silent this)
                   (_eventContext this)).
  rewrite (pass_heap this first invert1 h parent inherited props1)
    by done.
  fold passed1 context1 scope1. cbn [fst snd].
  set (h1 := <[passed1 := context1]> h).
  set (passed2 := fresh (dom h1)).
  assert (h1 !! passed2 = None) as Hfresh2
    by apply not_elem_of_dom, is_fresh.
  assert (passed1 ≠ passed2) as Hne.
  { intros Heq. rewrite <- Heq in Hfresh2. subst h1.
    by rewrite lookup_insert_eq in Hfresh2. }
  assert (parent ≠ passed1) as Hp1 by congruence.
  assert (second ≠ passed1) as Hs1 by congruence.
  assert (parent ≠ passed2) as Hp2.
  { intros Heq. rewrite <- Heq in Hfresh2. subst h1.
    by rewrite lookup_insert_ne, Hparent in Hfresh2. }
  rewrite (pass_heap scope1 second invert2 h1 passed1 context1 props2);
    [|done|by subst h1; rewrite lookup_insert_eq
      |by subst h1; rewrite lookup_insert_ne].
  fold passed2. cbn [fst snd _pass scope1]. exists passed1, passed2.
  split; [done|]. split; [done|]. split; [done|].
  rewrite lookup_insert_eq, !(lookup_insert_ne _ passed2) by done.
  subst h1. by rewrite lookup_insert_eq, lookup_insert_ne, Hparent.
Qed.

(** X15, on the heap of [ExamplePassed]: [pass({from: "x"})] on the root
    scope and then [pass({to: "y", from: "z"})]. *)
Lemma pass_chain_witness :
  ∃ passed1 passed2,
    _pass (Passed.pass
             (Passed.pass Example.model (VRef 2%positive) false
                ExamplePassed.heap).1
             (VRef 3%positive) false
             (Passed.pass Example.model (VRef 2%positive) false
                ExamplePassed.heap).2).1 = VRef passed2 ∧
    passed1 ≠ passed2 ∧
    (Passed.pass
       (Passed.pass Example.model (VRef 2%positive) false
          ExamplePassed.heap).1
       (VRef 3%positive) false
       (Passed.pass Example.model (VRef 2%positive) false
          ExamplePassed.heap).2).2 !! passed2
    = Some {[ "to" := VStr "y"; "from" := VStr "z" ]}.
Proof.
  destruct (pass_chain Example.model ExamplePassed.heap 1%positive ∅
              2%positive {[ "from" := VStr "x" ]} false
              3%positive {[ "to" := VStr "y"; "from" := VStr "z" ]} false)
    as (passed1 & passed2 & _ & H2 & Hne & _ & Hctx & _);
    [reflexivity..|].
  exists passed1, passed2. split; [exact H2|]. split; [exact Hne|].
  rewrite Hctx. reflexivity.
Defined.
